(** * Types/chain: the lazy chain enumerators

    A shallow embedding of the cursor classes of [Types/_chain]
    ([UniquelyEnumerator], [ZippedEnumerator], [SortedEnumerator],
    [FlattenedEnumerator], [MappedEnumerator]), of the chain [factory] and
    of the [Objectwise] collection enumerator, together with the properties
    the specification states about them. *)

From Stdlib Require Import ZArith List Permutation Bool Lia.
From stdpp Require Import base option list gmap strings pretty.
Import ListNotations.

Local Open Scope string_scope.
Local Open Scope list_scope.
Local Open Scope Z_scope.

(** ** JavaScript values *)

(** The fragment of the host language the enumerators inspect.  Numbers are
    modelled by their integer values: [VNum n] is the Number value of the
    literal [n], that is [n] itself when a double holds it exactly, as it
    does every integer up to [2 ^ 53], and the nearest double otherwise
    (fractions, NaN and the negative zero are outside the model); symbols
    and functions are left out.  An object value carries the address
    that is its identity next to a snapshot of what it holds.  Every object
    of the model inherits from Object.prototype. *)
Module JS.

Inductive value : Type :=
| VUndefined
| VNull
| VBool (b : bool)
| VNum (n : Z)
| VStr (s : string)
| VObject (ref : nat) (body : object)
with object : Type :=
| OPlain (props : list (string * value))
    (* an object literal: own enumerable properties, in enumeration order *)
| OArray (elems : list value)
    (* instanceof Array *)
| OEnumerable (entries : list (value * value))
    (* a collection implementing Types/collection#IEnumerable: the
       (index, element) pairs its enumerator yields *)
| OChain (cls : string) (entries : list (value * value))
    (* instanceof Types/_chain/Abstract: class name and the pairs the
       link's enumerator yields *)
| OArrayWith (elems : list value) (props : list (string * value)).
    (* instanceof Array, with own properties besides its elements (their
       names are no array indices) *)

(** An (index, element) pair, as an enumerator exposes it through
    [getCurrentIndex] and [getCurrent]. *)
Abbreviation entry := (value * value)%type.

Inductive Error : Type :=
| TypeError (message : string)
| GenericError (message : string).

(** The outcome of a call that may [throw]. *)
Inductive Result (A : Type) : Type :=
| Return (a : A)
| Throw (e : Error).
Arguments Return {A} a.
Arguments Throw {A} e.

(** [v instanceof Object] *)
Definition instanceofObject (v : value) : bool :=
  match v with VObject _ _ => true | _ => false end.

(** [v instanceof Array] *)
Definition instanceofArray (v : value) : bool :=
  match v with
  | VObject _ (OArray _) | VObject _ (OArrayWith _ _) => true
  | _ => false
  end.

(** The elements of an array. *)
Definition elements (v : value) : list value :=
  match v with
  | VObject _ (OArray elems) | VObject _ (OArrayWith elems _) => elems
  | _ => []
  end.

(** [v instanceof Abstract] *)
Definition instanceofAbstract (v : value) : bool :=
  match v with VObject _ (OChain _ _) => true | _ => false end.

(** ToBoolean *)
Definition truthy (v : value) : bool :=
  match v with
  | VUndefined | VNull => false
  | VBool b => b
  | VNum n => negb (n =? 0)
  | VStr s => negb (String.eqb s "")
  | VObject _ _ => true
  end.

(** [v] is an instance of a class that implements
    Types/collection#IEnumerable, chain links among them: it has the method
    [getEnumerator] and carries the interface tag. *)
Definition implementsIEnumerable (v : value) : bool :=
  match v with
  | VObject _ (OEnumerable _) | VObject _ (OChain _ _) => true
  | _ => false
  end.

(** The Number value nearest to the integer [m >= 0]: a significand of 53
    bits, ties going to the even significand. *)
Definition roundToNumber (m : Z) : Z :=
  let b := Z.log2 m in
  if b <? 53 then m
  else
    let sh := b - 52 in
    let q := Z.shiftr m sh in
    let r := m - Z.shiftl q sh in
    let half := Z.shiftl 1 (sh - 1) in
    if (half <? r) || ((r =? half) && Z.odd q) then Z.shiftl (q + 1) sh
    else Z.shiftl q sh.

(** The Number value of the literal [n]. *)
Definition toNumber (n : Z) : Z :=
  if n <? 0 then - roundToNumber (- n) else roundToNumber n.

(** [a === b]: objects are compared by identity. *)
Definition strictEquals (a b : value) : bool :=
  match a, b with
  | VUndefined, VUndefined => true
  | VNull, VNull => true
  | VBool x, VBool y => Bool.eqb x y
  | VNum x, VNum y => toNumber x =? toNumber y
  | VStr x, VStr y => String.eqb x y
  | VObject r _, VObject r' _ => Nat.eqb r r'
  | _, _ => false
  end.

(** *** Number::toString *)

(** The number of decimal digits of [x >= 0]. *)
Definition digits (x : Z) : Z := Z.of_nat (String.length (pretty x)).

(** The integer with the fewest significant digits, [k] or more, whose
    Number value is [x]; of two with equally many the nearer to [x] ([d] is
    the number of digits of [x]). *)
Fixpoint shortestFrom (fuel : nat) (k d x : Z) : Z :=
  match fuel with
  | O => x
  | S fuel' =>
    let e := d - k in
    if e <=? 0 then x
    else
      let unit := 10 ^ e in
      let lo := x / unit * unit in
      let hi := lo + unit in
      let okLo := roundToNumber lo =? x in
      let okHi := roundToNumber hi =? x in
      if okLo && okHi then
        if x - lo <? hi - x then lo
        else if hi - x <? x - lo then hi
        else if Z.even (lo / unit) then lo else hi
      else if okLo then lo
      else if okHi then hi
      else shortestFrom fuel' (k + 1) d x
  end.

(** Seventeen significant digits tell any two Number values apart. *)
Definition shortest (x : Z) : Z := shortestFrom 17 1 (digits x) x.

(** [v] without its trailing zeros. *)
Fixpoint significand (fuel : nat) (v : Z) : Z :=
  match fuel with
  | O => v
  | S fuel' =>
    if (v =? 0) || negb (v mod 10 =? 0) then v else significand fuel' (v / 10)
  end.

(** The exponent form of [v > 0]: its significant digits with a point behind
    the first one, then the exponent. *)
Definition exponentForm (v : Z) : string :=
  match pretty (significand (String.length (pretty v)) v) with
  | String c rest =>
    String c (if String.eqb rest "" then "" else "." +:+ rest)
    +:+ "e+" +:+ pretty (digits v - 1)
  | EmptyString => ""
  end.

(** The string of the Number value of [n].  With [v] the shortest decimal
    for it, of [d] digits: [v] as it is when [d <= 21], else its exponent
    form; a value of [2 ^ 1024] or more is an infinity. *)
Definition numberToString (n : Z) : string :=
  let x := roundToNumber (Z.abs n) in
  let sign := if n <? 0 then "-" else "" in
  if 1024 <=? Z.log2 x then sign +:+ "Infinity"
  else
    let v := shortest x in
    if digits v <=? 21 then sign +:+ pretty v
    else sign +:+ exponentForm v.

(** *** ToString, ToPropertyKey *)

(** ToString of a value, which for a primitive is also its property key.
    An array answers with its elements joined by commas, any other object
    with the default of [Object.prototype.toString]. *)
Fixpoint toString (v : value) : string :=
  match v with
  | VUndefined => "undefined"
  | VNull => "null"
  | VBool true => "true"
  | VBool false => "false"
  | VNum n => numberToString n
  | VStr s => s
  | VObject _ o =>
    let join :=
      fix join (l : list value) : string :=
        match l with
        | [] => ""
        | x :: l' =>
          match x with VUndefined | VNull => "" | _ => toString x end
          +:+ match l' with [] => "" | _ => "," +:+ join l' end
        end in
    match o with
    | OArray elems | OArrayWith elems _ => join elems
    | _ => "[object Object]"
    end
  end.

(** [Array.prototype.indexOf]: position of the first strictly equal
    element, [-1] when there is none. *)
Fixpoint indexOfFrom (i : Z) (l : list value) (v : value) : Z :=
  match l with
  | [] => -1
  | x :: l' => if strictEquals x v then i else indexOfFrom (i + 1) l' v
  end.
Definition indexOf (l : list value) (v : value) : Z := indexOfFrom 0 l v.

(** [arr[i]] on a native array: [undefined] outside the bounds. *)
Definition arrayGet (elems : list value) (i : Z) : value :=
  if i <? 0 then VUndefined else default VUndefined (elems !! Z.to_nat i).

(** Own enumerable properties of an object, in [Object.keys] order. *)
Definition ownProperties (v : value) : list (string * value) :=
  match v with
  | VObject _ (OPlain props) => props
  | VObject _ (OArray elems) => imap (fun i e => (pretty (Z.of_nat i), e)) elems
  | VObject _ (OArrayWith elems props) =>
    imap (fun i e => (pretty (Z.of_nat i), e)) elems ++ props
  | _ => []
  end.

(** [Object.keys(v)] *)
Definition keys (v : value) : list string := map fst (ownProperties v).

(** The value held under the name [k] among the properties [props],
    [undefined] when there is none. *)
Definition propertyOf (props : list (string * value)) (k : string) : value :=
  match find (fun p => String.eqb (fst p) k) props with
  | Some p => snd p
  | None => VUndefined
  end.

(** [v[k]] for an own property. *)
Definition getProperty (v : value) (k : string) : value :=
  propertyOf (ownProperties v) k.

(** The interface tag [v['[Types/_collection/IEnumerable]']]: [true] through
    the class of a collection that implements the interface, else whatever
    the value holds under that name as a property of its own ([undefined]
    when it holds nothing, as for the primitives). *)
Definition IEnumerableTag (v : value) : value :=
  if implementsIEnumerable v then VBool true
  else getProperty v "[Types/_collection/IEnumerable]".

(** The names every object literal inherits from [Object.prototype]; the
    [in] operator finds them in an empty hash. *)
Definition ObjectPrototypeKeys : list string :=
  [ "constructor"; "__defineGetter__"; "__defineSetter__";
    "hasOwnProperty"; "__lookupGetter__"; "__lookupSetter__";
    "isPrototypeOf"; "propertyIsEnumerable"; "toString"; "valueOf";
    "__proto__"; "toLocaleString" ].

End JS.
Import JS.


(** ** Cursors and chain links *)

Module Cursor.

(** Modelled from the spec: the enumerators of the upstream links
    ([IndexedEnumerator], [ArrayEnumerator], ...; their source is missing).
    A cursor is an iteration state over the (index, element)
    pairs of its source: current element ([undefined] before the first
    advance), current index, advance, reset.  What the index is before the
    first advance the spec leaves open, and the enumerators differ in it;
    the model answers [undefined] there as well. *)
Record t : Type := { items : list entry; index : Z }.

Definition create (l : list entry) : t := {| items := l; index := -1 |}.

Definition getCurrent (c : t) : value :=
  if index c <? 0 then VUndefined
  else match items c !! Z.to_nat (index c) with
       | Some e => snd e
       | None => VUndefined
       end.

Definition getCurrentIndex (c : t) : value :=
  if index c <? 0 then VUndefined
  else match items c !! Z.to_nat (index c) with
       | Some e => fst e
       | None => VUndefined
       end.

Definition moveNext (c : t) : bool * t :=
  if 1 + index c >=? Z.of_nat (length (items c)) then (false, c)
  else (true, {| items := items c; index := index c + 1 |}).

Definition reset (c : t) : t := {| items := items c; index := -1 |}.

(** What is still ahead of the cursor. *)
Definition remaining (c : t) : list entry :=
  drop (Z.to_nat (index c + 1)) (items c).

End Cursor.

Module Abstract.

(** Modelled from the spec: the chain link base class [Types/_chain/Abstract]
    (source missing).  A link is represented by the
    (index, element) pairs a cursor over it yields and by its
    [shouldSaveIndices] attribute; every [getEnumerator] call hands out a
    new cursor that starts before the first element. *)
Record t : Type := { entries : list entry; shouldSaveIndices : bool }.

Definition getEnumerator (p : t) : Cursor.t := Cursor.create (entries p).

(** The link over a native array: positional indices, no saved indices. *)
Definition ofArray (elems : list value) : t :=
  {| entries := imap (fun i e => (VNum (Z.of_nat i), e)) elems;
     shouldSaveIndices := false |}.

End Abstract.

(** [item.getEnumerator()] on a value that implements IEnumerable. *)
Definition getEnumerator (v : value) : Cursor.t :=
  match v with
  | VObject _ (OEnumerable es) | VObject _ (OChain _ es) => Cursor.create es
  | _ => Cursor.create []
  end.

(** The call [item.getEnumerator()] on any value that has properties: the
    values of the model that are not such collections have no method of
    that name. *)
Definition callGetEnumerator (item : value) : Result Cursor.t :=
  if implementsIEnumerable item then Return (getEnumerator item)
  else Throw (TypeError "item.getEnumerator is not a function").

(** The store of cursor objects: a cursor is a mutable object, known to its
    owner by its address. *)
Abbreviation Heap := (list Cursor.t).

(** [previous.getEnumerator()] as an allocation in the store. *)
Definition allocEnumerator (p : Abstract.t) (h : Heap) : nat * Heap :=
  (length h, h ++ [Abstract.getEnumerator p]).

(** ** Types/_chain/UniquelyEnumerator *)
Module UniquelyEnumerator.

Definition ExtractFunc : Type := value -> value -> value.

Record t : Type := {
  previous : Abstract.t;
  idExtractor : option ExtractFunc;
  enumerator : option nat;
  objectsHash : list value;
  keysHash : gset string
}.

(** [key in hash] on a hash that starts as an object literal: own keys and
    the names inherited from Object.prototype. *)
Definition inHash (key : value) (hash : gset string) : bool :=
  bool_decide (toString key ∈ hash)
  || bool_decide (toString key ∈ ObjectPrototypeKeys).

Definition reset (u : t) (h : Heap) : t * Heap :=
  let (a, h') := allocEnumerator (previous u) h in
  ({| previous := previous u; idExtractor := idExtractor u;
      enumerator := Some a; objectsHash := []; keysHash := ∅ |}, h').

Definition constructor (previous : Abstract.t) (idExtractor : option ExtractFunc)
    (h : Heap) : t * Heap :=
  reset {| previous := previous; idExtractor := idExtractor;
           enumerator := None; objectsHash := []; keysHash := ∅ |} h.

Definition getCurrent (u : t) (h : Heap) : option value :=
  a ← enumerator u; c ← h !! a; Some (Cursor.getCurrent c).

Definition getCurrentIndex (u : t) (h : Heap) : option value :=
  a ← enumerator u; c ← h !! a; Some (Cursor.getCurrentIndex c).

(** [moveNext] calls itself to skip an element that was seen before; the
    fuel bounds the depth of that recursion.  [None] stands for no result:
    the fuel ran out or the enumerator is not in the store. *)
Fixpoint moveNextFuel (fuel : nat) (u : t) (h : Heap) : option (bool * t * Heap) :=
  match fuel with
  | O => None
  | S fuel' =>
    a ← enumerator u;
    c ← h !! a;
    let (hasNext, c') := Cursor.moveNext c in
    let h' := <[a := c']> h in
    if hasNext then
      let current := Cursor.getCurrent c' in
      let current :=
        match idExtractor u with
        | Some f => f current (Cursor.getCurrentIndex c')
        | None => current
        end in
      if instanceofObject current then
        if indexOf (objectsHash u) current >? -1 then moveNextFuel fuel' u h'
        else Some (true,
                   {| previous := previous u; idExtractor := idExtractor u;
                      enumerator := enumerator u;
                      objectsHash := objectsHash u ++ [current];
                      keysHash := keysHash u |}, h')
      else
        if inHash current (keysHash u) then moveNextFuel fuel' u h'
        else Some (true,
                   {| previous := previous u; idExtractor := idExtractor u;
                      enumerator := enumerator u;
                      objectsHash := objectsHash u;
                      keysHash := {[ toString current ]} ∪ keysHash u |}, h')
    else Some (false, u, h')
  end.

(** One more call than there are elements upstream always suffices. *)
Definition moveNext (u : t) (h : Heap) : option (bool * t * Heap) :=
  a ← enumerator u;
  c ← h !! a;
  moveNextFuel (S (length (Cursor.items c))) u h.

(** The consumer's loop: advance until [moveNext] answers [false], collecting
    the (index, element) pairs on the way. *)
Fixpoint traverse (fuel : nat) (u : t) (h : Heap) : option (list entry) :=
  match fuel with
  | O => None
  | S fuel' =>
    match moveNext u h with
    | Some (true, u', h') =>
      i ← getCurrentIndex u' h';
      x ← getCurrent u' h';
      rest ← traverse fuel' u' h';
      Some ((i, x) :: rest)
    | Some (false, _, _) => Some []
    | None => None
    end
  end.

(** [unique()] over a native array, driven to completion. *)
Definition unique (elems : list value) : option (list value) :=
  let p := Abstract.ofArray elems in
  let (u, h) := constructor p None [] in
  map snd <$> traverse (S (length elems)) u h.

End UniquelyEnumerator.


(** *** What [unique] is to compute *)

(** The key an element is remembered by. *)
Definition dedupKey (f : option UniquelyEnumerator.ExtractFunc) (e : entry) : value :=
  match f with
  | Some g => g (snd e) (fst e)
  | None => snd e
  end.

(** Two keys the hashes cannot tell apart: the same object, or two
    primitives with the same property key. *)
Definition sameKey (a b : value) : bool :=
  match instanceofObject a, instanceofObject b with
  | true, true => strictEquals a b
  | false, false => String.eqb (toString a) (toString b)
  | _, _ => false
  end.

(** A primitive key that names a property of Object.prototype. *)
Definition inheritedKey (k : value) : bool :=
  negb (instanceofObject k) && bool_decide (toString k ∈ ObjectPrototypeKeys).

(** The entries whose key is not the key ([same]) of an entry before them;
    [earlier] holds the keys met so far. *)
Fixpoint firstOccurrences (same : value -> value -> bool)
    (f : option UniquelyEnumerator.ExtractFunc) (earlier : list value) (l : list entry)
    : list entry :=
  match l with
  | [] => []
  | e :: r =>
    let k := dedupKey f e in
    if existsb (same k) earlier then firstOccurrences same f (k :: earlier) r
    else e :: firstOccurrences same f (k :: earlier) r
  end.

(** The membership test of [moveNext] on the two hashes. *)
Definition seen (k : value) (oh : list value) (kh : gset string) : bool :=
  if instanceofObject k then indexOf oh k >? -1 else UniquelyEnumerator.inHash k kh.

(** The update of the two hashes when an element is let through. *)
Definition remember (k : value) (oh : list value) (kh : gset string)
    : list value * gset string :=
  if instanceofObject k then (oh ++ [k], kh) else (oh, {[ toString k ]} ∪ kh).

(** The first entry ahead that [moveNext] lets through, with what is left
    behind it. *)
Fixpoint skipSeen (f : option UniquelyEnumerator.ExtractFunc) (oh : list value)
    (kh : gset string) (rest : list entry) : option (entry * list entry) :=
  match rest with
  | [] => None
  | e :: r => if seen (dedupKey f e) oh kh then skipSeen f oh kh r else Some (e, r)
  end.

(** Everything a traversal yields from [rest] on, given the hashes. *)
Fixpoint uniqRun (f : option UniquelyEnumerator.ExtractFunc) (oh : list value)
    (kh : gset string) (rest : list entry) : list entry :=
  match rest with
  | [] => []
  | e :: r =>
    let k := dedupKey f e in
    if seen k oh kh then uniqRun f oh kh r
    else e :: uniqRun f (fst (remember k oh kh)) (snd (remember k oh kh)) r
  end.

(** The enumerator owns a cursor of the store that runs over its upstream
    link and has [rest] ahead of it. *)
Definition owns (u : UniquelyEnumerator.t) (h : Heap) (rest : list entry) : Prop :=
  exists a c,
    UniquelyEnumerator.enumerator u = Some a /\ h !! a = Some c /\
    -1 <= Cursor.index c /\
    Cursor.items c = Abstract.entries (UniquelyEnumerator.previous u) /\
    Cursor.remaining c = rest.

(** What one [moveNext] call is to answer ([res]) when [rest] is ahead of
    the upstream cursor. *)
Definition moveNextPost (u : UniquelyEnumerator.t) (rest : list entry)
    (res : option (bool * UniquelyEnumerator.t * Heap)) : Prop :=
  match skipSeen (UniquelyEnumerator.idExtractor u) (UniquelyEnumerator.objectsHash u)
          (UniquelyEnumerator.keysHash u) rest with
  | None => exists h', res = Some (false, u, h') /\ owns u h' []
  | Some (e, r) =>
    exists u' h',
      res = Some (true, u', h') /\
      owns u' h' r /\
      UniquelyEnumerator.getCurrent u' h' = Some (snd e) /\
      UniquelyEnumerator.getCurrentIndex u' h' = Some (fst e) /\
      UniquelyEnumerator.previous u' = UniquelyEnumerator.previous u /\
      UniquelyEnumerator.idExtractor u' = UniquelyEnumerator.idExtractor u /\
      UniquelyEnumerator.enumerator u' = UniquelyEnumerator.enumerator u /\
      (UniquelyEnumerator.objectsHash u', UniquelyEnumerator.keysHash u') =
        remember (dedupKey (UniquelyEnumerator.idExtractor u) e)
          (UniquelyEnumerator.objectsHash u) (UniquelyEnumerator.keysHash u)
  end.

(** Sample data: records deduplicated by their [id] property. *)
Definition byId : UniquelyEnumerator.ExtractFunc := fun item _ => getProperty item "id".

Definition people : list value :=
  [ VObject 1 (OPlain [("id", VNum 1); ("name", VStr "a")]);
    VObject 2 (OPlain [("id", VNum 1); ("name", VStr "b")]);
    VObject 3 (OPlain [("id", VNum 2); ("name", VStr "c")]) ].

(** ** Types/_chain/ZippedEnumerator *)
Module ZippedEnumerator.

(** The cursors of a zipped enumerator are reachable from it alone, so they
    are kept in place: [enumerator] is [null] or the primary cursor,
    [itemsEnumerators] is the sparse array of the cursors made so far, by
    argument position.  [current] is [undefined] or the tuple. *)
Record t : Type := {
  previous : Abstract.t;
  items : list value;
  current : option (list value);
  index : Z;
  enumerator : option Cursor.t;
  itemsEnumerators : gmap nat Cursor.t
}.

Definition reset (z : t) : t :=
  {| previous := previous z; items := items z;
     enumerator := None; index := -1; current := None;
     itemsEnumerators := ∅ |}.

Definition constructor (previous : Abstract.t) (items : list value) : Result t :=
  Return (reset {| previous := previous; items := items;
                   current := None; index := -1; enumerator := None;
                   itemsEnumerators := ∅ |}).

Definition getCurrent (z : t) : option (list value) := current z.

Definition getCurrentIndex (z : t) : Z := index z.

(** [item[index]] for an [item] that is a native array. *)
Definition elementAt (item : value) (index : Z) : value :=
  arrayGet (elements item) index.

Definition unsupported (i : nat) : Error :=
  TypeError ("Collection at argument " +:+ pretty (Z.of_nat i)
             +:+ " should implement Types/collection#IEnumerable").

(** The loop over [this.items] from position [i] on, building the tuple
    [current]; the answer comes with the cursors as the loop leaves them. *)
Fixpoint zipItems (index : Z) (i : nat) (items : list value)
    (ies : gmap nat Cursor.t) (current : list value)
    : Result (list value) * gmap nat Cursor.t :=
  match items with
  | [] => (Return current, ies)
  | item :: rest =>
    if instanceofArray item then
      zipItems index (S i) rest ies (current ++ [elementAt item index])
    else if truthy item && truthy (IEnumerableTag item) then
      match
        match ies !! i with
        | Some c => Return c
        | None => callGetEnumerator item
        end
      with
      | Return itemEnumerator =>
        let (hasNext, c') := Cursor.moveNext itemEnumerator in
        zipItems index (S i) rest (<[i := c']> ies)
          (current ++ [if hasNext then Cursor.getCurrent c' else VUndefined])
      | Throw e => (Throw e, ies)
      end
    else (Throw (unsupported i), ies)
  end.

Definition moveNext (z : t) : Result bool * t :=
  let enumerator :=
    match enumerator z with
    | Some c => c
    | None => Abstract.getEnumerator (previous z)
    end in
  let (hasNext, enumerator') := Cursor.moveNext enumerator in
  if hasNext then
    let index' := index z + 1 in
    match zipItems index' 0 (items z) (itemsEnumerators z)
            [Cursor.getCurrent enumerator'] with
    | (Return current', ies) =>
      (Return true,
       {| previous := previous z; items := items z;
          current := Some current'; index := index';
          enumerator := Some enumerator'; itemsEnumerators := ies |})
    | (Throw e, ies) =>
      (Throw e,
       {| previous := previous z; items := items z;
          current := current z; index := index';
          enumerator := Some enumerator'; itemsEnumerators := ies |})
    end
  else
    (Return false,
     {| previous := previous z; items := items z;
        current := current z; index := index z;
        enumerator := Some enumerator';
        itemsEnumerators := itemsEnumerators z |}).

(** The consumer's loop: advance until [moveNext] answers [false] or throws,
    collecting the (index, tuple) pairs on the way. *)
Fixpoint traverse (fuel : nat) (z : t)
    : option (Result (list (Z * option (list value)))) :=
  match fuel with
  | O => None
  | S fuel' =>
    match moveNext z with
    | (Return true, z') =>
      match traverse fuel' z' with
      | Some (Return rest) =>
        Some (Return ((getCurrentIndex z', getCurrent z') :: rest))
      | other => other
      end
    | (Return false, _) => Some (Return [])
    | (Throw e, _) => Some (Throw e)
    end
  end.

End ZippedEnumerator.

(** *** What [zip] is to compute *)

(** The second test of [moveNext] on a secondary collection:
    [item && item['[Types/_collection/IEnumerable]']]. *)
Definition tagged (item : value) : bool :=
  truthy item && truthy (IEnumerableTag item).


(** A secondary collection [moveNext] can read: a native array, or a
    collection that implements IEnumerable. *)
Definition supported (item : value) : bool :=
  instanceofArray item || implementsIEnumerable item.


(** The [i]-th element of a secondary collection, [undefined] when it has
    fewer than [i + 1] elements. *)
Definition secondaryAt (item : value) (i : nat) : value :=
  match item with
  | VObject _ (OArray elems) | VObject _ (OArrayWith elems _) =>
    default VUndefined (elems !! i)
  | VObject _ (OEnumerable es) | VObject _ (OChain _ es) =>
    match es !! i with
    | Some e => snd e
    | None => VUndefined
    end
  | _ => VUndefined
  end.

(** The tuple at position [i]: the primary element, then the [i]-th element
    of every secondary in argument order. *)
Definition tupleAt (items : list value) (i : nat) (e : entry) : list value :=
  snd e :: map (fun s => secondaryAt s i) items.

Definition zipped (primary : list entry) (items : list value)
    : list (Z * option (list value)) :=
  imap (fun i e => (Z.of_nat i, Some (tupleAt items i e))) primary.

(** The cursor over [l] after [k] calls of its [moveNext]. *)
Definition cursorAfter (k : nat) (l : list entry) : Cursor.t :=
  {| Cursor.items := l;
     Cursor.index := Z.min (Z.of_nat k) (Z.of_nat (length l)) - 1 |}.

(** The state of a zipped enumerator over [p] and [secondaries] after [k]
    successful advances. *)
Definition zippedAfter (p : Abstract.t) (secondaries : list value) (k : nat)
    (z : ZippedEnumerator.t) : Prop :=
  ZippedEnumerator.previous z = p /\ ZippedEnumerator.items z = secondaries /\
  ZippedEnumerator.index z = Z.of_nat k - 1 /\
  default (Abstract.getEnumerator p) (ZippedEnumerator.enumerator z)
    = cursorAfter k (Abstract.entries p) /\
  forall j item, secondaries !! j = Some item -> instanceofArray item = false ->
    default (getEnumerator item) (ZippedEnumerator.itemsEnumerators z !! j)
    = cursorAfter k (Cursor.items (getEnumerator item)).

(** The enumerator after [k] calls of [moveNext] in a row. *)
Fixpoint movedNext (k : nat) (z : ZippedEnumerator.t) : ZippedEnumerator.t :=
  match k with
  | O => z
  | S k' => snd (ZippedEnumerator.moveNext (movedNext k' z))
  end.

(** ** Types/_chain/SortedEnumerator *)

Module SortWrapper.

(** Modelled from the spec: [Types/_chain/SortWrapper] (source missing)
    pairs an element with its pre-sort index for the
    duration of one sort pass. *)
Record t : Type := { item : value; index : value }.

Definition new (item index : value) : t := {| item := item; index := index |}.

Definition valueOf (w : t) : value := item w.

Definition indexOf (w : t) : value := index w.

End SortWrapper.

Module IndexedEnumerator.

(** Modelled from the spec: [IndexedEnumerator._getItems] (source missing)
    pulls every (index, element) pair from upstream into a
    working sequence. *)
Definition _getItems (previous : Abstract.t) : list entry :=
  Abstract.entries previous.

End IndexedEnumerator.

Module SortedEnumerator.

(** The comparator is handed the wrappers. *)
Definition CompareFunction : Type := SortWrapper.t -> SortWrapper.t -> Z.

Record t : Type := {
  previous : Abstract.t;
  compareFunction : CompareFunction;
  _items : option (list entry);
  index : Z
}.

Section Host.

(** The host's [Array.prototype.sort], and its operators [===] and [>] on
    the wrappers. *)
Variable sort : CompareFunction -> list SortWrapper.t -> list SortWrapper.t.
Variables strictEq greater : SortWrapper.t -> SortWrapper.t -> bool.

Definition defaultCompare (a b : SortWrapper.t) : Z :=
  if strictEq a b then 0 else if greater a b then 1 else -1.

Definition constructor (previous : Abstract.t)
    (compareFunction : option CompareFunction) : t :=
  {| previous := previous;
     compareFunction := default defaultCompare compareFunction;
     _items := None; index := -1 |}.

(** The wrappers after the sort pass. *)
Definition sortedWrappers (e : t) : list SortWrapper.t :=
  sort (compareFunction e)
    (map (fun '(index, item) => SortWrapper.new item index)
       (IndexedEnumerator._getItems (previous e))).

Definition _getItems (e : t) : list entry * t :=
  match _items e with
  | Some items => (items, e)
  | None =>
    let shouldSaveIndices := Abstract.shouldSaveIndices (previous e) in
    let items :=
      imap (fun index item =>
              (if shouldSaveIndices then SortWrapper.indexOf item
               else VNum (Z.of_nat index),
               SortWrapper.valueOf item))
        (sortedWrappers e) in
    (items,
     {| previous := previous e; compareFunction := compareFunction e;
        _items := Some items; index := index e |})
  end.

End Host.

End SortedEnumerator.

(** *** What the host's sort promises *)

(** A consistent comparison function, as ECMAScript defines it. *)
Record ConsistentComparator (cmp : SortedEnumerator.CompareFunction) : Prop := {
  cmp_refl : forall a, cmp a a = 0;
  cmp_sym : forall a b, cmp a b = 0 -> cmp b a = 0;
  cmp_trans_eq : forall a b c, cmp a b = 0 -> cmp b c = 0 -> cmp a c = 0;
  cmp_trans_lt : forall a b c, cmp a b < 0 -> cmp b c < 0 -> cmp a c < 0;
  cmp_trans_gt : forall a b c, cmp a b > 0 -> cmp b c > 0 -> cmp a c > 0
}.



(** A sort rearranges its input. *)
Definition PermutingSort
    (sort : SortedEnumerator.CompareFunction -> list SortWrapper.t -> list SortWrapper.t)
    : Prop :=
  forall cmp l, Permutation (sort cmp l) l.

(** A stable sort primitive to run the examples with: insertion from the
    right, an element going in front of the first one it does not exceed. *)
Fixpoint insertSorted (cmp : SortedEnumerator.CompareFunction) (x : SortWrapper.t)
    (l : list SortWrapper.t) : list SortWrapper.t :=
  match l with
  | [] => [x]
  | y :: l' => if cmp x y <=? 0 then x :: y :: l' else y :: insertSorted cmp x l'
  end.

Fixpoint insertionSort (cmp : SortedEnumerator.CompareFunction) (l : list SortWrapper.t)
    : list SortWrapper.t :=
  match l with
  | [] => []
  | x :: l' => insertSorted cmp x (insertionSort cmp l')
  end.

(** A second stable sort primitive, which asks the comparator the way the
    insertion sort of the engines does, with the later element first: an
    element goes behind the later ones that compare less than it. *)
Fixpoint insertBehind (cmp : SortedEnumerator.CompareFunction) (x : SortWrapper.t)
    (l : list SortWrapper.t) : list SortWrapper.t :=
  match l with
  | [] => [x]
  | y :: l' => if cmp y x <? 0 then y :: insertBehind cmp x l' else x :: y :: l'
  end.

Fixpoint insertionSortBehind (cmp : SortedEnumerator.CompareFunction)
    (l : list SortWrapper.t) : list SortWrapper.t :=
  match l with
  | [] => []
  | x :: l' => insertBehind cmp x (insertionSortBehind cmp l')
  end.



(** Sample data: a comparator by the numeric property [k]. *)
Definition numberOf (v : value) : Z :=
  match v with VNum n => toNumber n | _ => 0 end.



(** Host operators to run the default comparator with: identity of the
    wrapped pair, and [>] on wrapped numbers. *)
Definition sameWrapper (a b : SortWrapper.t) : bool :=
  strictEquals (SortWrapper.item a) (SortWrapper.item b)
  && strictEquals (SortWrapper.index a) (SortWrapper.index b).

Definition greaterNumber (a b : SortWrapper.t) : bool :=
  numberOf (SortWrapper.item a) >? numberOf (SortWrapper.item b).

(** [===] on wrappers that stand for the numbers they wrap. *)
Definition sameNumber (a b : SortWrapper.t) : bool :=
  numberOf (SortWrapper.item a) =? numberOf (SortWrapper.item b).

Definition byValue : SortedEnumerator.CompareFunction :=
  fun a b => numberOf (SortWrapper.item a) - numberOf (SortWrapper.item b).

(** ** Types/_chain/factory *)
Module Factory.

(** What [factory] may be handed: a value of the model, a bare object, made
    without a prototype ([Object.create(null)]) and holding the given
    properties, or a symbol.  A bare object is an instance of no class,
    Object included; neither it nor a symbol has a string form: converting
    them throws. *)
Inductive Source : Type :=
| Ordinary (v : value)
| Bare (props : list (string * value))
| SymbolOf (description : string).

(** [source instanceof Abstract] *)
Definition isAbstract (source : Source) : bool :=
  match source with Ordinary v => instanceofAbstract v | _ => false end.

(** [source && source['[Types/_collection/IEnumerable]']] *)
Definition isTagged (source : Source) : bool :=
  match source with
  | Ordinary v => truthy v && truthy (IEnumerableTag v)
  | Bare props => truthy (propertyOf props "[Types/_collection/IEnumerable]")
  | SymbolOf _ => false
  end.

(** [source instanceof Array] *)
Definition isArray (source : Source) : bool :=
  match source with Ordinary v => instanceofArray v | _ => false end.

(** [source instanceof Object] *)
Definition isObject (source : Source) : bool :=
  match source with Ordinary v => instanceofObject v | _ => false end.

(** The conversion to a string inside the template literal. *)
Definition stringOf (source : Source) : Result string :=
  match source with
  | Ordinary v => Return (toString v)
  | Bare _ => Throw (TypeError "Cannot convert object to primitive value")
  | SymbolOf _ => Throw (TypeError "Cannot convert a Symbol value to a string")
  end.

(** The pairs a source enumerates through [getEnumerator].  (A source that
    lacks the method has none to show: the adapter over it is made all the
    same, and only its traversal would fail.) *)
Definition enumerated (source : Source) : list entry :=
  match source with
  | Ordinary v => Cursor.items (getEnumerator v)
  | _ => []
  end.

(** Modelled from the spec: the source adapters [Enumerable], [Arraywise]
    and [Objectwise] of [Types/_chain] (source missing) are
    chain links; the Enumerable adapter delegates to the cursor of what it
    wraps, the positional adapter enumerates an array by integer position,
    the keyed adapter enumerates a key-value object by string key.  [fresh]
    is the address of the object that [new] makes. *)
Definition Enumerable (fresh : nat) (source : Source) : Source :=
  Ordinary (VObject fresh (OChain "Enumerable" (enumerated source))).

Definition Arraywise (fresh : nat) (source : Source) : Source :=
  Ordinary
    (VObject fresh
       (OChain "Arraywise"
          (match source with
           | Ordinary v => imap (fun i e => (VNum (Z.of_nat i), e)) (elements v)
           | _ => []
           end))).

Definition Objectwise (fresh : nat) (source : Source) : Source :=
  Ordinary
    (VObject fresh
       (OChain "Objectwise"
          (map (fun '(k, v) => (VStr k, v))
             (match source with
              | Ordinary v => ownProperties v
              | Bare props => props
              | SymbolOf _ => []
              end)))).

Definition quote : string := String (Ascii.ascii_of_nat 34) EmptyString.

(** The error of the last line, for a source with the string form [shown]. *)
Definition unsupported (shown : string) : Error :=
  TypeError ("Unsupported source type " +:+ quote +:+ shown +:+ quote
             +:+ ": only Array or Object are supported.").

Definition factory (fresh : nat) (source : Source) : Result Source :=
  if isAbstract source then Return source
  else if isTagged source then Return (Enumerable fresh source)
  else if isArray source then Return (Arraywise fresh source)
  else if isObject source then Return (Objectwise fresh source)
  else
    match stringOf source with
    | Return shown => Throw (unsupported shown)
    | Throw e => Throw e
    end.

End Factory.

(** ** Types/_chain/FlattenedEnumerator *)

Module FlattenedMover.

(** Modelled from the spec: [Types/_chain/FlattenedMover] (source missing)
    keeps a stack of active cursors, one per nesting level,
    innermost first.  On exhausting the innermost cursor it pops to the
    parent level; on meeting an element that is an array or an enumerable it
    pushes a cursor for it instead of yielding it; only the other elements
    are yielded. *)
Record t : Type := { stack : list Cursor.t; current : value }.

Definition new (parent : Cursor.t) : t :=
  {| stack := [parent]; current := VUndefined |}.

Definition getCurrent (m : t) : value := current m.

(** The cursor pushed for a nested collection. *)
Definition nested (el : value) : Cursor.t :=
  if instanceofArray el then
    Cursor.create (imap (fun i e => (VNum (Z.of_nat i), e)) (elements el))
  else getEnumerator el.

Fixpoint moveNextFuel (fuel : nat) (m : t) : option (bool * t) :=
  match fuel with
  | O => None
  | S fuel' =>
    match stack m with
    | [] => Some (false, m)
    | c :: parents =>
      let (hasNext, c') := Cursor.moveNext c in
      if hasNext then
        let el := Cursor.getCurrent c' in
        if instanceofArray el || implementsIEnumerable el then
          moveNextFuel fuel' {| stack := nested el :: c' :: parents;
                                current := current m |}
        else Some (true, {| stack := c' :: parents; current := el |})
      else moveNextFuel fuel' {| stack := parents; current := current m |}
    end
  end.

(** How much there is to visit below a value: one for every collection and
    one for every element of a collection, at any depth. *)
Fixpoint weight (v : value) : nat :=
  match v with
  | VObject _ o => weightOf o
  | _ => O
  end
with weightOf (o : object) : nat :=
  match o with
  | OPlain _ => O
  | OArray elems | OArrayWith elems _ =>
    S ((fix go (l : list value) : nat :=
          match l with
          | [] => O
          | x :: l' => S (weight x + go l')
          end) elems)
  | OEnumerable es | OChain _ es =>
    S ((fix go (l : list (value * value)) : nat :=
          match l with
          | [] => O
          | (_, x) :: l' => S (weight x + go l')
          end) es)
  end.

(** The steps that are left: what is ahead of every cursor of the stack, and
    one pop for each. *)
Definition measure (m : t) : nat :=
  list_sum (map (fun c => S (list_sum (map (fun e => S (weight (snd e)))
                                         (Cursor.remaining c))))
              (stack m)).

Definition moveNext (m : t) : bool * t :=
  match moveNextFuel (S (measure m)) m with
  | Some r => r
  | None => (false, m)
  end.

End FlattenedMover.

Module FlattenedEnumerator.

Section Mover.

(** The mover class, by its constructor and its two methods. *)
Variable Mover : Type.
Variable newMover : Cursor.t -> Mover.
Variable moverMoveNext : Mover -> bool * Mover.
Variable moverGetCurrent : Mover -> value.

Record t : Type := {
  previous : Abstract.t;
  mover : option Mover;
  index : Z
}.

Definition reset (e : t) : t :=
  {| previous := previous e; mover := None; index := -1 |}.

Definition constructor (previous : Abstract.t) : t :=
  reset {| previous := previous; mover := None; index := -1 |}.

Definition getCurrent (e : t) : value :=
  match mover e with
  | Some m => moverGetCurrent m
  | None => VUndefined
  end.

Definition getCurrentIndex (e : t) : Z := index e.

Definition moveNext (e : t) : bool * t :=
  let m :=
    match mover e with
    | Some m => m
    | None => newMover (Abstract.getEnumerator (previous e))
    end in
  let (hasNext, m') := moverMoveNext m in
  (hasNext,
   {| previous := previous e; mover := Some m';
      index := if hasNext then index e + 1 else index e |}).

(** [calls] calls of [moveNext] in a row: how many answered [true], and the
    state they leave. *)
Fixpoint advances (calls : nat) (e : t) : nat * t :=
  match calls with
  | O => (O, e)
  | S calls' =>
    let (hasNext, e') := moveNext e in
    let (n, e'') := advances calls' e' in
    ((if hasNext then S n else n), e'')
  end.

(** The consumer's loop, cut off after [fuel] calls: the (index, element)
    pairs collected until [moveNext] answers [false]. *)
Fixpoint traverse (fuel : nat) (e : t) : list (Z * value) :=
  match fuel with
  | O => []
  | S fuel' =>
    let (hasNext, e') := moveNext e in
    if hasNext then (getCurrentIndex e', getCurrent e') :: traverse fuel' e'
    else []
  end.

End Mover.

End FlattenedEnumerator.

(** [flatten()] over a native array with the mover above, driven for [fuel]
    calls. *)
Definition flatten (fuel : nat) (elems : list value) : list (Z * value) :=
  FlattenedEnumerator.traverse FlattenedMover.t FlattenedMover.new FlattenedMover.moveNext
    FlattenedMover.getCurrent fuel
    (FlattenedEnumerator.constructor FlattenedMover.t (Abstract.ofArray elems)).

(** ** Types/_collection/enumerator/Objectwise *)
Module Objectwise.

Record t : Type := {
  _items : value;
  _keys : list string;
  _index : Z;
  _filter : option (value -> value -> bool)
}.

(** [fresh] is the address of the object literal that stands in for an
    [undefined] argument. *)
Definition constructor (fresh : nat) (items : value) : Result t :=
  let checkedItems :=
    match items with
    | VUndefined => VObject fresh (OPlain [])
    | _ => items
    end in
  if negb (instanceofObject checkedItems) then
    Throw (GenericError "Argument items should be an instance of Object")
  else
    Return {| _items := checkedItems; _keys := keys checkedItems;
              _index := -1; _filter := None |}.

(** [this._keys[this._index]], [undefined] outside the bounds. *)
Definition getCurrentIndex (e : t) : value :=
  if _index e <? 0 then VUndefined
  else match _keys e !! Z.to_nat (_index e) with
       | Some k => VStr k
       | None => VUndefined
       end.

Definition getCurrent (e : t) : value :=
  if _index e <? 0 then VUndefined
  else match _keys e !! Z.to_nat (_index e) with
       | Some k => getProperty (_items e) k
       | None => getProperty (_items e) "undefined"
       end.

Definition reset (e : t) : t :=
  {| _items := _items e; _keys := _keys e; _index := -1; _filter := _filter e |}.

Definition setFilter (e : t) (filter : option (value -> value -> bool)) : t :=
  {| _items := _items e; _keys := _keys e; _index := _index e; _filter := filter |}.

(** [moveNext] calls itself to step over an element that the filter turns
    down; the fuel bounds the depth of that recursion, [None] stands for
    fuel that ran out. *)
Fixpoint moveNextFuel (fuel : nat) (e : t) : option (bool * t) :=
  if 1 + _index e >=? Z.of_nat (length (_keys e)) then Some (false, e)
  else
    match fuel with
    | O => None
    | S fuel' =>
      let e' := {| _items := _items e; _keys := _keys e;
                   _index := _index e + 1; _filter := _filter e |} in
      let current := getCurrent e' in
      match _filter e' with
      | Some filter =>
        if negb (filter current (getCurrentIndex e')) then moveNextFuel fuel' e'
        else Some (true, e')
      | None => Some (true, e')
      end
    end.

(** There are no more steps to take than there are keys. *)
Definition moveNext (e : t) : option (bool * t) :=
  moveNextFuel (length (_keys e)) e.

(** The consumer's loop: advance until [moveNext] answers [false], collecting
    the (key, value) pairs on the way. *)
Fixpoint traverse (fuel : nat) (e : t) : option (list entry) :=
  match fuel with
  | O => None
  | S fuel' =>
    match moveNext e with
    | Some (true, e') =>
      match traverse fuel' e' with
      | Some rest => Some ((getCurrentIndex e', getCurrent e') :: rest)
      | None => None
      end
    | Some (false, _) => Some []
    | None => None
    end
  end.

End Objectwise.

(** *** What the keyed enumerator is to yield *)

(** The pair the enumerator shows while it stands on the key [k]. *)
Definition entryAt (e : Objectwise.t) (k : string) : entry :=
  (VStr k, getProperty (Objectwise._items e) k).

(** Whether the installed filter, if any, lets a pair through. *)
Definition passes (filter : option (value -> value -> bool)) (en : entry) : bool :=
  match filter with
  | Some f => f (snd en) (fst en)
  | None => true
  end.

(** The keys ahead of the enumerator. *)
Definition keysAhead (e : Objectwise.t) : list string :=
  drop (Z.to_nat (Objectwise._index e + 1)) (Objectwise._keys e).

(** The keys from the first one on that the filter lets through. *)
Fixpoint dropRejected (e : Objectwise.t) (ks : list string) : list string :=
  match ks with
  | [] => []
  | k :: ks' =>
    if passes (Objectwise._filter e) (entryAt e k) then ks else dropRejected e ks'
  end.

(** The enumerator moved to the position [i]. *)
Definition atIndex (e : Objectwise.t) (i : Z) : Objectwise.t :=
  {| Objectwise._items := Objectwise._items e;
     Objectwise._keys := Objectwise._keys e;
     Objectwise._index := i;
     Objectwise._filter := Objectwise._filter e |}.

(** ** Types/_chain/MappedEnumerator *)
Module MappedEnumerator.

(** The callback is called with [callbackContext] as its [this]. *)
Definition MapFunc : Type := value -> value -> value -> value.

(** [enumerator] is [null] in the prototype only: the constructor assigns it
    through [reset] before any method can run. *)
Record t : Type := {
  previous : Abstract.t;
  callback : MapFunc;
  callbackContext : value;
  enumerator : Cursor.t;
  current : value
}.

Definition reset (m : t) : t :=
  {| previous := previous m; callback := callback m;
     callbackContext := callbackContext m;
     enumerator := Abstract.getEnumerator (previous m);
     current := VUndefined |}.

(** The constructor stores its arguments and calls [reset]. *)
Definition constructor (previous : Abstract.t) (callback : MapFunc)
    (callbackContext : value) : t :=
  {| previous := previous; callback := callback;
     callbackContext := callbackContext;
     enumerator := Abstract.getEnumerator previous;
     current := VUndefined |}.

Definition getCurrent (m : t) : value := current m.

Definition getCurrentIndex (m : t) : value :=
  Cursor.getCurrentIndex (enumerator m).

Definition moveNext (m : t) : bool * t :=
  let (hasNext, c') := Cursor.moveNext (enumerator m) in
  if hasNext then
    (true,
     {| previous := previous m; callback := callback m;
        callbackContext := callbackContext m;
        enumerator := c';
        current := callback m (callbackContext m) (Cursor.getCurrent c')
                     (Cursor.getCurrentIndex c') |})
  else
    (false,
     {| previous := previous m; callback := callback m;
        callbackContext := callbackContext m;
        enumerator := c'; current := current m |}).

(** The consumer's loop, cut off after [fuel] calls; [None] when the fuel
    ran out before [moveNext] answered [false]. *)
Fixpoint traverse (fuel : nat) (m : t) : option (list entry) :=
  match fuel with
  | O => None
  | S fuel' =>
    let (hasNext, m') := moveNext m in
    if hasNext then
      match traverse fuel' m' with
      | Some rest => Some ((getCurrentIndex m', getCurrent m') :: rest)
      | None => None
      end
    else Some []
  end.

(** The enumerator after [k] calls of [moveNext] in a row. *)
Fixpoint movedNext (k : nat) (m : t) : t :=
  match k with
  | O => m
  | S k' => snd (moveNext (movedNext k' m))
  end.

End MappedEnumerator.

(** The pair a mapped cursor shows for the upstream pair [e]. *)
Definition mappedEntry (f : MappedEnumerator.MapFunc) (context : value)
    (e : entry) : entry :=
  (fst e, f context (snd e) (fst e)).

(** The keys of the entries are pairwise different for the hashes. *)
Definition distinctKeys (f : option UniquelyEnumerator.ExtractFunc)
    (l : list entry) : Prop :=
  ForallOrdPairs (fun a b => sameKey (dedupKey f a) (dedupKey f b) = false) l.
(** * Properties *)

Example unique_numbers :
  UniquelyEnumerator.unique [VNum 1; VNum 1; VNum 2; VStr "1"] = Some [VNum 1; VNum 2].
Proof. vm_compute. reflexivity. Qed.

(** ** Cursors *)

Lemma Cursor_remaining_create l : Cursor.remaining (Cursor.create l) = l.
Proof. reflexivity. Qed.

Lemma Cursor_remaining_length c :
  (length (Cursor.remaining c) <= length (Cursor.items c))%nat.
Proof. unfold Cursor.remaining. rewrite length_drop. lia. Qed.

Lemma Cursor_moveNext_nil c :
  -1 <= Cursor.index c -> Cursor.remaining c = [] ->
  Cursor.moveNext c = (false, c).
Proof.
  intros Hi Hr. unfold Cursor.remaining in Hr. apply drop_nil_inv in Hr.
  unfold Cursor.moveNext.
  destruct (1 + Cursor.index c >=? Z.of_nat (length (Cursor.items c))) eqn:E;
    [done | lia].
Qed.

Lemma Cursor_moveNext_cons c e r :
  -1 <= Cursor.index c -> Cursor.remaining c = e :: r ->
  exists c',
    Cursor.moveNext c = (true, c') /\
    Cursor.items c' = Cursor.items c /\
    Cursor.index c' = Cursor.index c + 1 /\
    Cursor.getCurrent c' = snd e /\
    Cursor.getCurrentIndex c' = fst e /\
    Cursor.remaining c' = r.
Proof.
  intros Hi Hr. unfold Cursor.remaining in Hr.
  assert (Hl : Cursor.items c !! Z.to_nat (Cursor.index c + 1) = Some e).
  { rewrite <- (Nat.add_0_r (Z.to_nat _)), <- lookup_drop, Hr. done. }
  pose proof (lookup_lt_Some _ _ _ Hl) as Hlt.
  exists {| Cursor.items := Cursor.items c; Cursor.index := Cursor.index c + 1 |}.
  unfold Cursor.moveNext, Cursor.getCurrent, Cursor.getCurrentIndex,
    Cursor.remaining; simpl.
  destruct (1 + Cursor.index c >=? Z.of_nat (length (Cursor.items c))) eqn:E;
    [lia |].
  destruct (Cursor.index c + 1 <? 0) eqn:E'; [lia |].
  rewrite Hl. repeat split; try done.
  rewrite (drop_S _ _ _ Hl) in Hr. inversion Hr as [Hr'].
  f_equal. lia.
Qed.

(** ** UniquelyEnumerator *)

Lemma strictEquals_sym a b : strictEquals a b = strictEquals b a.
Proof.
  destruct a, b; simpl; try done.
  - by destruct b, b0.
  - apply Z.eqb_sym.
  - apply String.eqb_sym.
  - apply Nat.eqb_sym.
Qed.

Lemma sameKey_sym a b : sameKey a b = sameKey b a.
Proof.
  unfold sameKey.
  destruct (instanceofObject a), (instanceofObject b); try done.
  - apply strictEquals_sym.
  - apply String.eqb_sym.
Qed.

Lemma sameKey_trans a b c :
  sameKey a b = true -> sameKey b c = true -> sameKey a c = true.
Proof.
  unfold sameKey.
  destruct (instanceofObject a) eqn:Ea, (instanceofObject b) eqn:Eb,
    (instanceofObject c) eqn:Ec; try done.
  - destruct a, b, c; try done; simpl.
    rewrite !Nat.eqb_eq. congruence.
  - rewrite !String.eqb_eq. congruence.
Qed.

Lemma indexOfFrom_found i l v :
  0 <= i ->
  (indexOfFrom i l v >? -1) = existsb (fun x => strictEquals x v) l.
Proof.
  revert i. induction l as [|x l IH]; intros i Hi; simpl.
  - done.
  - destruct (strictEquals x v); simpl.
    + apply Z.gtb_lt. lia.
    + apply IH. lia.
Qed.

Lemma seen_remember k k' oh kh :
  seen k' (fst (remember k oh kh)) (snd (remember k oh kh))
  = sameKey k' k || seen k' oh kh.
Proof.
  unfold seen, remember, sameKey.
  destruct (instanceofObject k) eqn:Ek, (instanceofObject k') eqn:Ek'; simpl;
    try done.
  - unfold indexOf. rewrite !indexOfFrom_found by lia.
    rewrite existsb_app. simpl. rewrite orb_false_r, orb_comm.
    by rewrite (strictEquals_sym k k').
  - unfold UniquelyEnumerator.inHash.
    rewrite orb_assoc. f_equal.
    destruct (String.eqb_spec (toString k') (toString k)) as [->|Hne]; simpl.
    + apply bool_decide_eq_true, elem_of_union. left. by apply elem_of_singleton.
    + apply bool_decide_ext. rewrite elem_of_union, elem_of_singleton. tauto.
Qed.

Lemma uniqRun_skipSeen f oh kh rest :
  uniqRun f oh kh rest =
  match skipSeen f oh kh rest with
  | None => []
  | Some (e, r) =>
    e :: uniqRun f (fst (remember (dedupKey f e) oh kh))
           (snd (remember (dedupKey f e) oh kh)) r
  end.
Proof.
  induction rest as [|e r IH]; simpl; [done |].
  destruct (seen (dedupKey f e) oh kh); done.
Qed.

Lemma owns_constructor p f h :
  owns (fst (UniquelyEnumerator.constructor p f h))
    (snd (UniquelyEnumerator.constructor p f h))
    (Abstract.entries p).
Proof.
  exists (length h), (Abstract.getEnumerator p). simpl.
  repeat split; try done.
  rewrite lookup_app_r by lia. by rewrite Nat.sub_diag.
Qed.

Lemma owns_reset u h :
  owns (fst (UniquelyEnumerator.reset u h)) (snd (UniquelyEnumerator.reset u h))
    (Abstract.entries (UniquelyEnumerator.previous u)).
Proof.
  exists (length h), (Abstract.getEnumerator (UniquelyEnumerator.previous u)). simpl.
  repeat split; try done.
  rewrite lookup_app_r by lia. by rewrite Nat.sub_diag.
Qed.

Lemma moveNextFuel_S fuel u h :
  UniquelyEnumerator.moveNextFuel (S fuel) u h =
  (a ← UniquelyEnumerator.enumerator u;
   c ← h !! a;
   let (hasNext, c') := Cursor.moveNext c in
   let h' := <[a := c']> h in
   if hasNext then
     let current := dedupKey (UniquelyEnumerator.idExtractor u)
                      (Cursor.getCurrentIndex c', Cursor.getCurrent c') in
     if seen current (UniquelyEnumerator.objectsHash u) (UniquelyEnumerator.keysHash u)
     then UniquelyEnumerator.moveNextFuel fuel u h'
     else Some (true,
                {| UniquelyEnumerator.previous := UniquelyEnumerator.previous u;
                   UniquelyEnumerator.idExtractor := UniquelyEnumerator.idExtractor u;
                   UniquelyEnumerator.enumerator := UniquelyEnumerator.enumerator u;
                   UniquelyEnumerator.objectsHash :=
                     fst (remember current (UniquelyEnumerator.objectsHash u)
                            (UniquelyEnumerator.keysHash u));
                   UniquelyEnumerator.keysHash :=
                     snd (remember current (UniquelyEnumerator.objectsHash u)
                            (UniquelyEnumerator.keysHash u)) |}, h')
   else Some (false, u, h')).
Proof.
  simpl. destruct (UniquelyEnumerator.enumerator u) as [a|]; [|done]; simpl.
  destruct (h !! a) as [c|]; [|done]; simpl.
  destruct (Cursor.moveNext c) as [[] c']; [|done].
  unfold seen, remember, dedupKey; simpl.
  destruct (UniquelyEnumerator.idExtractor u); simpl;
    by repeat match goal with |- context [if ?b then _ else _] => destruct b end.
Qed.

(** One [moveNext], told by what is ahead of the upstream cursor. *)
Lemma moveNextFuel_spec rest : forall fuel u h,
  owns u h rest -> (length rest < fuel)%nat ->
  moveNextPost u rest (UniquelyEnumerator.moveNextFuel fuel u h).
Proof.
  induction rest as [|e r IH]; intros fuel u h Hown Hf;
    pose proof Hown as (a & c & Ha & Hc & Hi & Hit & Hr);
    (destruct fuel as [|fuel]; [simpl in Hf; lia |]);
    rewrite moveNextFuel_S, Ha; simpl; rewrite Hc; simpl.
  - rewrite (Cursor_moveNext_nil c Hi Hr), list_insert_id by done.
    by exists h.
  - destruct (Cursor_moveNext_cons c e r Hi Hr)
      as (c' & -> & Hit' & Hi' & Hcur & Hidx & Hr').
    rewrite Hcur, Hidx, <- surjective_pairing.
    assert (Hlk : <[a:=c']> h !! a = Some c').
    { apply list_lookup_insert_eq. by eapply lookup_lt_Some. }
    assert (Hown' : forall u', UniquelyEnumerator.enumerator u' = Some a ->
              UniquelyEnumerator.previous u' = UniquelyEnumerator.previous u ->
              owns u' (<[a:=c']> h) r).
    { intros u' Ha' Hp'. exists a, c'. rewrite Hp'.
      repeat split; [done | done | lia | congruence | done]. }
    unfold moveNextPost in *. simpl.
    destruct (seen (dedupKey (UniquelyEnumerator.idExtractor u) e)
                (UniquelyEnumerator.objectsHash u) (UniquelyEnumerator.keysHash u)) eqn:Es.
    + apply IH; [by apply Hown' | simpl in Hf; lia].
    + eexists _, _. split; [done |].
      split; [by apply Hown' |].
      unfold UniquelyEnumerator.getCurrent, UniquelyEnumerator.getCurrentIndex; simpl.
      rewrite Ha; simpl. rewrite Hlk; simpl. rewrite Hcur, Hidx.
      repeat split; try done.
      by destruct (remember _ _ _).
Qed.

Lemma moveNext_spec rest u h :
  owns u h rest -> moveNextPost u rest (UniquelyEnumerator.moveNext u h).
Proof.
  intros Hown. pose proof Hown as (a & c & Ha & Hc & Hi & Hit & Hr).
  assert (UniquelyEnumerator.moveNext u h =
          UniquelyEnumerator.moveNextFuel (S (length (Cursor.items c))) u h) as ->.
  { unfold UniquelyEnumerator.moveNext. rewrite Ha; simpl. by rewrite Hc. }
  apply moveNextFuel_spec; [done |].
  pose proof (Cursor_remaining_length c). rewrite Hr in *. lia.
Qed.

Lemma skipSeen_length f oh kh rest e r :
  skipSeen f oh kh rest = Some (e, r) -> (length r < length rest)%nat.
Proof.
  induction rest as [|e' r' IH]; simpl; [done |].
  destruct (seen _ _ _).
  - intros H. apply IH in H. lia.
  - intros [= <- <-]. lia.
Qed.

(** A traversal with enough fuel yields what [uniqRun] tells. *)
Lemma traverse_spec fuel : forall rest u h,
  owns u h rest -> (length rest < fuel)%nat ->
  UniquelyEnumerator.traverse fuel u h =
  Some (uniqRun (UniquelyEnumerator.idExtractor u) (UniquelyEnumerator.objectsHash u)
          (UniquelyEnumerator.keysHash u) rest).
Proof.
  induction fuel as [|fuel IH]; intros rest u h Hown Hf; [lia |].
  simpl. rewrite uniqRun_skipSeen.
  pose proof (moveNext_spec rest u h Hown) as Hm.
  pose proof (skipSeen_length (UniquelyEnumerator.idExtractor u)
                (UniquelyEnumerator.objectsHash u)
                (UniquelyEnumerator.keysHash u) rest) as Hlen.
  unfold moveNextPost in Hm.
  destruct (skipSeen _ _ _ rest) as [[e r]|].
  - destruct Hm as (u' & h' & -> & Hown' & -> & -> & Hp & Hf' & He & Hst).
    simpl. specialize (Hlen e r eq_refl).
    rewrite (IH r u' h' Hown') by lia. simpl.
    rewrite Hf'. inversion Hst as [[Ho Hk]].
    destruct e. repeat f_equal; by rewrite <- ?Ho, <- ?Hk.
  - destruct Hm as (h' & -> & _). done.
Qed.

Lemma seen_empty k : inheritedKey k = false -> seen k [] ∅ = false.
Proof.
  unfold inheritedKey, seen, UniquelyEnumerator.inHash.
  destruct (instanceofObject k); simpl; [done |].
  intros ->. rewrite orb_false_r. apply bool_decide_eq_false. set_solver.
Qed.

Lemma existsb_sameKey_trans k k' earlier :
  sameKey k' k = true -> existsb (sameKey k) earlier = true ->
  existsb (sameKey k') earlier = true.
Proof.
  intros Hk. rewrite !existsb_exists. intros (x & Hin & Hx).
  exists x. split; [done |]. by eapply sameKey_trans.
Qed.

(** The hashes only hold the keys that were let through; as [sameKey] is an
    equivalence they answer as the list of all keys met so far would. *)
Lemma uniqRun_firstOccurrences f l : forall oh kh earlier,
  Forall (fun e => inheritedKey (dedupKey f e) = false) l ->
  (forall k, inheritedKey k = false ->
     seen k oh kh = existsb (sameKey k) earlier) ->
  uniqRun f oh kh l = firstOccurrences sameKey f earlier l.
Proof.
  induction l as [|e r IH]; intros oh kh earlier Hok Hrel; simpl; [done |].
  inversion Hok as [|? ? Hk Hok']; subst.
  rewrite <- (Hrel _ Hk).
  destruct (seen (dedupKey f e) oh kh) eqn:Es.
  - apply IH; [done |]. intros k' Hk'. simpl.
    destruct (sameKey k' (dedupKey f e)) eqn:Ekk; simpl; [| by apply Hrel].
    rewrite (Hrel _ Hk').
    apply (existsb_sameKey_trans (dedupKey f e)); [done |].
    by rewrite <- (Hrel _ Hk).
  - f_equal. apply IH; [done |]. intros k' Hk'. simpl.
    rewrite seen_remember. f_equal. by apply Hrel.
Qed.

Lemma skipSeen_split f oh kh rest e r :
  skipSeen f oh kh rest = Some (e, r) -> exists pre, rest = pre ++ e :: r.
Proof.
  induction rest as [|e' r' IH]; simpl; [done |].
  destruct (seen _ _ _).
  - intros H. destruct (IH H) as [pre ->]. by exists (e' :: pre).
  - intros [= <- <-]. by exists [].
Qed.

Lemma owns_remaining_subseteq u h rest e :
  owns u h rest -> e ∈ rest -> e ∈ Abstract.entries (UniquelyEnumerator.previous u).
Proof.
  intros (a & c & _ & _ & _ & Hit & Hr) Hin. rewrite <- Hit.
  unfold Cursor.remaining in Hr. rewrite <- Hr in Hin.
  apply list_elem_of_lookup in Hin as [i Hi].
  rewrite lookup_drop in Hi. by eapply list_elem_of_lookup_2.
Qed.

(** *** C1 *)

Example unique_same_object :
  UniquelyEnumerator.unique
    [VObject 7 (OPlain [("x", VNum 1)]); VObject 7 (OPlain [("x", VNum 1)]);
     VObject 8 (OPlain [("x", VNum 2)])]
  = Some [VObject 7 (OPlain [("x", VNum 1)]); VObject 8 (OPlain [("x", VNum 2)])].
Proof. vm_compute. reflexivity. Qed.

Example unique_equal_contents :
  UniquelyEnumerator.unique
    [VObject 7 (OPlain [("x", VNum 1)]); VObject 8 (OPlain [("x", VNum 1)])]
  = Some [VObject 7 (OPlain [("x", VNum 1)]); VObject 8 (OPlain [("x", VNum 1)])].
Proof. vm_compute. reflexivity. Qed.

Example unique_inherited_name :
  UniquelyEnumerator.unique [VStr "toString"; VStr "a"] = Some [VStr "a"].
Proof. vm_compute. reflexivity. Qed.

(** A number is keyed by its string form, which from [1e21] on is the
    exponent form of its shortest decimal. *)
Example toString_numbers :
  toString (VNum 0) = "0" /\ toString (VNum (-12)) = "-12" /\
  toString (VNum (2 ^ 53)) = "9007199254740992" /\
  toString (VNum (2 ^ 60)) = "1152921504606847000" /\
  toString (VNum (10 ^ 21 - 1)) = "1e+21" /\
  toString (VNum (10 ^ 21)) = "1e+21" /\
  toString (VNum (-(10 ^ 21))) = "-1e+21" /\
  toString (VNum 123456789012345678901234) = "1.2345678901234569e+23" /\
  toString (VNum (2 ^ 1024)) = "Infinity".
Proof. vm_compute. repeat split. Qed.

Example unique_exponent_form :
  UniquelyEnumerator.unique
    [VNum (10 ^ 21); VStr "1000000000000000000000"; VStr "1e+21"]
  = Some [VNum (10 ^ 21); VStr "1000000000000000000000"].
Proof. vm_compute. reflexivity. Qed.

(** C1, as stated, fails: the value hash is keyed by property names, so the
    string ['1'] is taken for the number [1] that was seen before it;
    [unique([1,1,2,'1'])] yields [[1,2]], not [[1,2,'1']]. *)
Lemma unique_numbers_and_strings_collide :
  UniquelyEnumerator.unique [VNum 1; VNum 1; VNum 2; VStr "1"] = Some [VNum 1; VNum 2] /\
  UniquelyEnumerator.unique [VNum 1; VNum 1; VNum 2; VStr "1"]
    <> Some [VNum 1; VNum 2; VStr "1"] /\
  firstOccurrences strictEquals None []
    (Abstract.entries (Abstract.ofArray [VNum 1; VNum 1; VNum 2; VStr "1"]))
  = [(VNum 0, VNum 1); (VNum 2, VNum 2); (VNum 3, VStr "1")].
Proof. repeat split; vm_compute; congruence. Qed.

(** C1 (amended): without an id-extractor, a traversal of the Uniquely
    cursor yields exactly the upstream entries whose key was not met before,
    in upstream order, where two objects have the same key when they are the
    same object (identity, never contents) and two primitives when they have
    the same property key, that is the same string form (the number [1] and
    the string ['1'] share one key).  Stated for elements whose property key
    is not a name inherited from Object.prototype. *)
Theorem unique_yields_first_occurrences (p : Abstract.t) (h : Heap) :
  Forall (fun e => inheritedKey (snd e) = false) (Abstract.entries p) ->
  UniquelyEnumerator.traverse (S (length (Abstract.entries p)))
    (fst (UniquelyEnumerator.constructor p None h))
    (snd (UniquelyEnumerator.constructor p None h))
  = Some (firstOccurrences sameKey None [] (Abstract.entries p)).
Proof.
  intros Hok.
  rewrite (traverse_spec _ (Abstract.entries p)); [| apply owns_constructor | lia].
  simpl. f_equal. apply uniqRun_firstOccurrences; [done |].
  intros k Hk. by apply seen_empty.
Qed.

Lemma unique_yields_first_occurrences_witness :
  UniquelyEnumerator.traverse 5
    (fst (UniquelyEnumerator.constructor
            (Abstract.ofArray [VNum 1; VNum 1; VNum 2; VStr "1"]) None []))
    (snd (UniquelyEnumerator.constructor
            (Abstract.ofArray [VNum 1; VNum 1; VNum 2; VStr "1"]) None []))
  = Some (firstOccurrences sameKey None []
            (Abstract.entries
               (Abstract.ofArray [VNum 1; VNum 1; VNum 2; VStr "1"]))) /\
  firstOccurrences sameKey None []
    (Abstract.entries (Abstract.ofArray [VNum 1; VNum 1; VNum 2; VStr "1"]))
  = [(VNum 0, VNum 1); (VNum 2, VNum 2)].
Proof.
  split.
  - apply (unique_yields_first_occurrences
             (Abstract.ofArray [VNum 1; VNum 1; VNum 2; VStr "1"]) []).
    repeat constructor.
  - reflexivity.
Defined.

(** *** C3 *)

(** C3, as stated, fails: [reset] does not touch the upstream cursor it
    holds; it asks the upstream link for another one.  After one advance and
    a reset the enumerator holds the cursor at address 1, the one at address
    0 still stands on the first element, and the store has grown. *)
Lemma uniquely_reset_leaves_old_cursor :
  exists u1 h1 u2 h2,
    UniquelyEnumerator.moveNext
      (fst (UniquelyEnumerator.constructor (Abstract.ofArray [VNum 5; VNum 6]) None []))
      (snd (UniquelyEnumerator.constructor (Abstract.ofArray [VNum 5; VNum 6]) None []))
    = Some (true, u1, h1) /\
    UniquelyEnumerator.reset u1 h1 = (u2, h2) /\
    UniquelyEnumerator.enumerator u1 = Some 0%nat /\
    UniquelyEnumerator.enumerator u2 = Some 1%nat /\
    h1 !! 0%nat = Some {| Cursor.items := [(VNum 0, VNum 5); (VNum 1, VNum 6)];
                          Cursor.index := 0 |} /\
    h2 !! 0%nat = Some {| Cursor.items := [(VNum 0, VNum 5); (VNum 1, VNum 6)];
                          Cursor.index := 0 |} /\
    h2 !! 1%nat = Some {| Cursor.items := [(VNum 0, VNum 5); (VNum 1, VNum 6)];
                          Cursor.index := -1 |} /\
    length h1 = 1%nat /\ length h2 = 2%nat.
Proof. do 4 eexists. repeat split; vm_compute; reflexivity. Qed.

(** C3 (amended): [reset] empties both hashes and replaces the upstream
    cursor by a new one, obtained from the upstream link and standing before
    its first element; the cursors that existed before, the one held so far
    among them, are left as they are.  A full traversal after the reset
    yields what a traversal of a newly constructed enumerator yields. *)
Theorem uniquely_reset_obtains_new_cursor (u : UniquelyEnumerator.t) (h : Heap) :
  UniquelyEnumerator.objectsHash (fst (UniquelyEnumerator.reset u h)) = [] /\
  UniquelyEnumerator.keysHash (fst (UniquelyEnumerator.reset u h)) = ∅ /\
  UniquelyEnumerator.enumerator (fst (UniquelyEnumerator.reset u h)) = Some (length h) /\
  snd (UniquelyEnumerator.reset u h)
    = h ++ [Cursor.create (Abstract.entries (UniquelyEnumerator.previous u))] /\
  (forall a c, h !! a = Some c -> snd (UniquelyEnumerator.reset u h) !! a = Some c) /\
  exists out,
    UniquelyEnumerator.traverse (S (length (Abstract.entries (UniquelyEnumerator.previous u))))
      (fst (UniquelyEnumerator.reset u h)) (snd (UniquelyEnumerator.reset u h)) = Some out /\
    forall h0,
      UniquelyEnumerator.traverse
        (S (length (Abstract.entries (UniquelyEnumerator.previous u))))
        (fst (UniquelyEnumerator.constructor (UniquelyEnumerator.previous u)
                (UniquelyEnumerator.idExtractor u) h0))
        (snd (UniquelyEnumerator.constructor (UniquelyEnumerator.previous u)
                (UniquelyEnumerator.idExtractor u) h0))
      = Some out.
Proof.
  repeat split; try done.
  - intros a c Ha. simpl. by apply lookup_app_l_Some.
  - eexists. split.
    + rewrite (traverse_spec _ (Abstract.entries (UniquelyEnumerator.previous u)));
        [done | apply owns_reset | lia].
    + intros h0.
      rewrite (traverse_spec _ (Abstract.entries (UniquelyEnumerator.previous u)));
        [done | apply owns_constructor | lia].
Qed.

(** *** C10 *)

(** C10: whatever the id-extractor, after a successful advance the current
    element and index of the Uniquely cursor are those of the upstream
    cursor, which stands on an entry of the upstream link; the extractor's
    result only decides whether the entry is let through. *)
Theorem uniquely_current_is_upstream_entry
    (u u' : UniquelyEnumerator.t) (h h' : Heap) (rest : list entry) :
  owns u h rest ->
  UniquelyEnumerator.moveNext u h = Some (true, u', h') ->
  exists a c e,
    UniquelyEnumerator.enumerator u' = Some a /\ h' !! a = Some c /\
    e ∈ Abstract.entries (UniquelyEnumerator.previous u) /\
    Cursor.getCurrent c = snd e /\
    Cursor.getCurrentIndex c = fst e /\
    UniquelyEnumerator.getCurrent u' h' = Some (snd e) /\
    UniquelyEnumerator.getCurrentIndex u' h' = Some (fst e).
Proof.
  intros Hown Hm. pose proof (moveNext_spec rest u h Hown) as Hpost.
  unfold moveNextPost in Hpost.
  destruct (skipSeen _ _ _ rest) as [[e r]|] eqn:Hs.
  - destruct Hpost as (u2 & h2 & Hm2 & Hown2 & Hc & Hi & _).
    rewrite Hm in Hm2. injection Hm2 as <- <-.
    pose proof Hown2 as (a & c & Ha & Hlk & _).
    exists a, c, e. repeat split; try done.
    + apply skipSeen_split in Hs as [pre ->].
      apply (owns_remaining_subseteq u h _ e Hown). set_solver.
    + unfold UniquelyEnumerator.getCurrent in Hc. rewrite Ha in Hc; simpl in Hc.
      rewrite Hlk in Hc; simpl in Hc. congruence.
    + unfold UniquelyEnumerator.getCurrentIndex in Hi. rewrite Ha in Hi; simpl in Hi.
      rewrite Hlk in Hi; simpl in Hi. congruence.
  - destruct Hpost as (h2 & Hm2 & _). congruence.
Qed.

Lemma uniquely_current_is_upstream_entry_witness :
  exists u' h',
    UniquelyEnumerator.moveNext
      (fst (UniquelyEnumerator.constructor (Abstract.ofArray people) (Some byId) []))
      (snd (UniquelyEnumerator.constructor (Abstract.ofArray people) (Some byId) []))
    = Some (true, u', h') /\
    exists a c e,
      UniquelyEnumerator.enumerator u' = Some a /\ h' !! a = Some c /\
      e ∈ Abstract.entries (Abstract.ofArray people) /\
      Cursor.getCurrent c = snd e /\
      Cursor.getCurrentIndex c = fst e /\
      UniquelyEnumerator.getCurrent u' h' = Some (snd e) /\
      UniquelyEnumerator.getCurrentIndex u' h' = Some (fst e).
Proof.
  eexists _, _. split.
  - vm_compute. reflexivity.
  - eapply (uniquely_current_is_upstream_entry
              (fst (UniquelyEnumerator.constructor (Abstract.ofArray people) (Some byId) []))
              _
              (snd (UniquelyEnumerator.constructor (Abstract.ofArray people) (Some byId) []))
              _ (Abstract.entries (Abstract.ofArray people))).
    + apply owns_constructor.
    + vm_compute. reflexivity.
Defined.

Example unique_by_id :
  UniquelyEnumerator.traverse 4
    (fst (UniquelyEnumerator.constructor (Abstract.ofArray people) (Some byId) []))
    (snd (UniquelyEnumerator.constructor (Abstract.ofArray people) (Some byId) []))
  = Some [ (VNum 0, VObject 1 (OPlain [("id", VNum 1); ("name", VStr "a")]));
           (VNum 2, VObject 3 (OPlain [("id", VNum 2); ("name", VStr "c")])) ].
Proof. vm_compute. reflexivity. Qed.

(** ** ZippedEnumerator *)

Lemma cursorAfter_0 l : cursorAfter 0 l = Cursor.create l.
Proof. unfold cursorAfter, Cursor.create. f_equal. lia. Qed.

Lemma cursorAfter_moveNext k l :
  Cursor.moveNext (cursorAfter k l)
  = (bool_decide (k < length l)%nat, cursorAfter (S k) l).
Proof.
  unfold Cursor.moveNext, cursorAfter; simpl.
  destruct (1 + (Z.of_nat k `min` Z.of_nat (length l) - 1)
            >=? Z.of_nat (length l)) eqn:E.
  - rewrite bool_decide_eq_false_2 by lia. do 2 f_equal. lia.
  - rewrite bool_decide_eq_true_2 by lia. do 2 f_equal. lia.
Qed.

Lemma cursorAfter_getCurrent k l :
  (k < length l)%nat ->
  Cursor.getCurrent (cursorAfter (S k) l)
  = match l !! k with Some e => snd e | None => VUndefined end.
Proof.
  intros Hk. unfold Cursor.getCurrent, cursorAfter; simpl.
  replace (Z.of_nat (S k) `min` Z.of_nat (length l) - 1) with (Z.of_nat k) by lia.
  destruct (Z.of_nat k <? 0) eqn:E; [lia |].
  by rewrite Nat2Z.id.
Qed.

Lemma elementAt_secondaryAt item k :
  instanceofArray item = true ->
  ZippedEnumerator.elementAt item (Z.of_nat k) = secondaryAt item k.
Proof.
  destruct item as [| | | | |r [ | | | | ]]; try done; intros _;
    unfold ZippedEnumerator.elementAt, secondaryAt, arrayGet; simpl;
    (destruct (Z.ltb_spec (Z.of_nat k) 0); [lia |]);
    by rewrite Nat2Z.id.
Qed.

Lemma supported_tagged item :
  instanceofArray item = false -> supported item = true ->
  tagged item = true /\ callGetEnumerator item = Return (getEnumerator item).
Proof.
  intros Ha Hs. unfold supported in Hs. rewrite Ha in Hs. simpl in Hs.
  unfold tagged, IEnumerableTag, callGetEnumerator. rewrite Hs.
  by destruct item as [| | | | |r o].
Qed.

Lemma enumerable_secondaryAt item k :
  instanceofArray item = false -> supported item = true ->
  (if bool_decide (k < length (Cursor.items (getEnumerator item)))%nat
   then Cursor.getCurrent (cursorAfter (S k) (Cursor.items (getEnumerator item)))
   else VUndefined) = secondaryAt item k.
Proof.
  intros Ha Hs. unfold supported in Hs. rewrite Ha in Hs. simpl in Hs.
  destruct item as [| | | | |r [ps|els|es|cls es|els ps]]; try done; simpl;
    case_bool_decide as Hk;
    rewrite ?cursorAfter_getCurrent by done; try done;
    by rewrite lookup_ge_None_2 by lia.
Qed.

(** The loop over the secondaries at the advance number [k]. *)
Lemma zipItems_supported k rest : forall i ies cur,
  Forall (fun item => supported item = true) rest ->
  (forall j item, rest !! j = Some item -> instanceofArray item = false ->
     default (getEnumerator item) (ies !! (i + j)%nat)
     = cursorAfter k (Cursor.items (getEnumerator item))) ->
  exists ies',
    ZippedEnumerator.zipItems (Z.of_nat k) i rest ies cur
    = (Return (cur ++ map (fun s => secondaryAt s k) rest), ies') /\
    (forall j item, rest !! j = Some item -> instanceofArray item = false ->
       default (getEnumerator item) (ies' !! (i + j)%nat)
       = cursorAfter (S k) (Cursor.items (getEnumerator item))) /\
    (forall j, (j < i)%nat -> ies' !! j = ies !! j).
Proof.
  induction rest as [|item rest IH]; intros i ies cur Hsup Hinv; simpl.
  - exists ies. rewrite app_nil_r. repeat split; done.
  - inversion Hsup as [|? ? Hitem Hrest]; subst.
    destruct (instanceofArray item) eqn:Ea.
    + destruct (IH (S i) ies (cur ++ [ZippedEnumerator.elementAt item (Z.of_nat k)]) Hrest)
        as (ies' & Hz & Hinv' & Hfr).
      { intros j it Hj Hna. replace (S i + j)%nat with (i + S j)%nat by lia.
        by apply (Hinv (S j)). }
      exists ies'. rewrite Hz, <- app_assoc, elementAt_secondaryAt by done.
      repeat split; [| by intros; apply Hfr; lia].
      intros [|j] it Hj Hna; simpl in Hj; [congruence |].
      replace (i + S j)%nat with (S i + j)%nat by lia. by apply (Hinv' j).
    + destruct (supported_tagged item Ea Hitem) as [Ht Hcall].
      unfold tagged in Ht. rewrite Ht, Hcall.
      pose proof (Hinv 0%nat item eq_refl Ea) as Hc. rewrite Nat.add_0_r in Hc.
      replace (match ies !! i with
               | Some c => Return c
               | None => Return (getEnumerator item)
               end)
        with (Return (A := Cursor.t) (default (getEnumerator item) (ies !! i)))
        by (by destruct (ies !! i)).
      rewrite Hc, cursorAfter_moveNext.
      destruct (IH (S i)
                  (<[i:=cursorAfter (S k) (Cursor.items (getEnumerator item))]> ies)
                  (cur ++ [if bool_decide (k < length (Cursor.items (getEnumerator item)))%nat
                           then Cursor.getCurrent
                                  (cursorAfter (S k) (Cursor.items (getEnumerator item)))
                           else VUndefined]) Hrest)
        as (ies' & Hz & Hinv' & Hfr).
      { intros j it Hj Hna. rewrite lookup_insert_ne by lia.
        replace (S i + j)%nat with (i + S j)%nat by lia.
        by apply (Hinv (S j)). }
      exists ies'. rewrite Hz, <- app_assoc, enumerable_secondaryAt by done.
      repeat split.
      * intros [|j] it Hj Hna; simpl in Hj.
        -- injection Hj as <-. rewrite Nat.add_0_r, Hfr by lia.
           by rewrite lookup_insert_eq.
        -- replace (i + S j)%nat with (S i + j)%nat by lia. by apply (Hinv' j).
      * intros j Hj. rewrite Hfr by lia. by rewrite lookup_insert_ne by lia.
Qed.

Lemma zippedAfter_constructor p secondaries :
  exists z, ZippedEnumerator.constructor p secondaries = Return z /\
            zippedAfter p secondaries 0 z.
Proof.
  eexists. split; [done |].
  repeat split; simpl; try done.
  - by rewrite cursorAfter_0.
  - intros j item _ _. rewrite lookup_empty. simpl.
    rewrite cursorAfter_0. by destruct item as [| | | | |r [ | | | | ]].
Qed.

(** An advance while the primary has an element ahead. *)
Lemma zipped_moveNext_some p secondaries k z e :
  Forall (fun item => supported item = true) secondaries ->
  zippedAfter p secondaries k z ->
  Abstract.entries p !! k = Some e ->
  exists z',
    ZippedEnumerator.moveNext z = (Return true, z') /\
    zippedAfter p secondaries (S k) z' /\
    ZippedEnumerator.getCurrentIndex z' = Z.of_nat k /\
    ZippedEnumerator.getCurrent z' = Some (tupleAt secondaries k e).
Proof.
  intros Hsup (Hp & Hit & Hi & Hc & Hies) He.
  pose proof (lookup_lt_Some _ _ _ He) as Hlt.
  unfold ZippedEnumerator.moveNext.
  replace (match ZippedEnumerator.enumerator z with
           | Some c => c
           | None => Abstract.getEnumerator (ZippedEnumerator.previous z)
           end) with (cursorAfter k (Abstract.entries p))
    by (rewrite <- Hc, Hp; by destruct (ZippedEnumerator.enumerator z)).
  rewrite cursorAfter_moveNext, bool_decide_eq_true_2 by done.
  rewrite cursorAfter_getCurrent, He by done.
  replace (ZippedEnumerator.index z + 1) with (Z.of_nat k) by lia.
  destruct (zipItems_supported k secondaries 0 (ZippedEnumerator.itemsEnumerators z) [snd e])
    as (ies' & Hz & Hinv' & _); [done | exact Hies | ].
  rewrite Hit, Hz. eexists. split; [done |].
  repeat split; simpl; try done. lia.
Qed.

(** An advance once the primary is exhausted. *)
Lemma zipped_moveNext_none p secondaries k z :
  zippedAfter p secondaries k z ->
  (length (Abstract.entries p) <= k)%nat ->
  exists z', ZippedEnumerator.moveNext z = (Return false, z') /\
             zippedAfter p secondaries k z'.
Proof.
  intros (Hp & Hit & Hi & Hc & Hies) Hk.
  unfold ZippedEnumerator.moveNext.
  replace (match ZippedEnumerator.enumerator z with
           | Some c => c
           | None => Abstract.getEnumerator (ZippedEnumerator.previous z)
           end) with (cursorAfter k (Abstract.entries p))
    by (rewrite <- Hc, Hp; by destruct (ZippedEnumerator.enumerator z)).
  rewrite cursorAfter_moveNext, bool_decide_eq_false_2 by lia.
  eexists. split; [done |].
  repeat split; simpl; try done.
  unfold cursorAfter. f_equal. lia.
Qed.

Lemma zipped_traverse_from p secondaries fuel : forall k z,
  Forall (fun item => supported item = true) secondaries ->
  zippedAfter p secondaries k z ->
  (length (Abstract.entries p) - k < fuel)%nat ->
  ZippedEnumerator.traverse fuel z
  = Some (Return (imap (fun i e => (Z.of_nat (k + i), Some (tupleAt secondaries (k + i) e)))
                    (drop k (Abstract.entries p)))).
Proof.
  induction fuel as [|fuel IH]; intros k z Hsup Hst Hf; [lia |].
  simpl. destruct (Abstract.entries p !! k) as [e|] eqn:He.
  - destruct (zipped_moveNext_some p secondaries k z e Hsup Hst He)
      as (z' & -> & Hst' & Hidx & Hcur).
    pose proof (lookup_lt_Some _ _ _ He) as Hlt.
    rewrite (IH (S k) z' Hsup Hst') by lia.
    rewrite (drop_S _ _ _ He). simpl. rewrite Hidx, Hcur, Nat.add_0_r.
    do 3 f_equal. apply imap_ext. intros i x _. simpl.
    by rewrite Nat.add_succ_r.
  - apply lookup_ge_None_1 in He.
    destruct (zipped_moveNext_none p secondaries k z Hst He) as (z' & -> & _).
    by rewrite drop_ge.
Qed.

Lemma zipped_movedNext p secondaries z k :
  Forall (fun item => supported item = true) secondaries ->
  zippedAfter p secondaries 0 z ->
  zippedAfter p secondaries (k `min` length (Abstract.entries p)) (movedNext k z).
Proof.
  intros Hsup Hz. induction k as [|k IH]; [done |]. cbn [movedNext].
  destruct (decide (k < length (Abstract.entries p))%nat) as [Hlt|Hge].
  - rewrite Nat.min_l in IH by lia.
    destruct (lookup_lt_is_Some_2 _ _ Hlt) as [e He].
    destruct (zipped_moveNext_some p secondaries k _ e Hsup IH He)
      as (z' & -> & Hz' & _).
    by rewrite Nat.min_l by lia.
  - rewrite Nat.min_r in IH by lia.
    destruct (zipped_moveNext_none p secondaries _ _ IH) as (z' & -> & Hz');
      [lia |].
    by rewrite Nat.min_r by lia.
Qed.

(** *** C5 *)

(** C5: when every secondary is a native array or an enumerable, the
    traversal of the zipped cursor yields one tuple per primary element: at
    position [i] the index is [i] and the tuple is the [i]-th primary element
    followed by the [i]-th element of each secondary in argument order,
    [undefined] for a secondary with fewer than [i + 1] elements.  The call
    number [k + 1] of [moveNext] answers [true] exactly when the primary has
    more than [k] elements, whatever the lengths of the secondaries. *)
Theorem zipped_yields_positional_tuples (p : Abstract.t) (secondaries : list value) :
  Forall (fun item => supported item = true) secondaries ->
  exists z,
    ZippedEnumerator.constructor p secondaries = Return z /\
    ZippedEnumerator.traverse (S (length (Abstract.entries p))) z
      = Some (Return (zipped (Abstract.entries p) secondaries)) /\
    length (zipped (Abstract.entries p) secondaries)
      = length (Abstract.entries p) /\
    forall k,
      fst (ZippedEnumerator.moveNext (movedNext k z))
      = Return (bool_decide (k < length (Abstract.entries p))%nat).
Proof.
  intros Hsup. destruct (zippedAfter_constructor p secondaries) as (z & Hz & Hst).
  exists z. split; [done |]. split; [| split].
  - rewrite (zipped_traverse_from p secondaries _ 0 z Hsup Hst) by lia.
    by rewrite drop_0.
  - unfold zipped. by rewrite length_imap.
  - intros k. pose proof (zipped_movedNext p secondaries z k Hsup Hst) as Hk.
    case_bool_decide as Hlt.
    + rewrite Nat.min_l in Hk by lia.
      destruct (lookup_lt_is_Some_2 _ _ Hlt) as [e He].
      by destruct (zipped_moveNext_some p secondaries k _ e Hsup Hk He)
        as (z' & -> & _).
    + rewrite Nat.min_r in Hk by lia.
      by destruct (zipped_moveNext_none p secondaries _ _ Hk) as (z' & -> & _);
        [lia |].
Qed.

Lemma zipped_yields_positional_tuples_witness :
  exists z,
    ZippedEnumerator.constructor (Abstract.ofArray [VNum 1; VNum 2; VNum 3])
      [VObject 1 (OArray [VStr "a"; VStr "b"])] = Return z /\
    ZippedEnumerator.traverse 4 z
      = Some (Return [ (0, Some [VNum 1; VStr "a"]);
                       (1, Some [VNum 2; VStr "b"]);
                       (2, Some [VNum 3; VUndefined]) ]).
Proof.
  destruct (zipped_yields_positional_tuples
              (Abstract.ofArray [VNum 1; VNum 2; VNum 3])
              [VObject 1 (OArray [VStr "a"; VStr "b"])])
    as (z & Hz & Ht & _).
  - repeat constructor.
  - exists z. split; [exact Hz | exact Ht].
Defined.

Example zip_with_enumerable :
  exists z,
    ZippedEnumerator.constructor (Abstract.ofArray [VNum 1; VNum 2; VNum 3])
      [VObject 1 (OEnumerable [(VStr "k", VStr "x")]);
       VObject 2 (OArray [VStr "a"; VStr "b"; VStr "c"; VStr "d"])] = Return z /\
    ZippedEnumerator.traverse 4 z
      = Some (Return [ (0, Some [VNum 1; VStr "x"; VStr "a"]);
                       (1, Some [VNum 2; VUndefined; VStr "b"]);
                       (2, Some [VNum 3; VUndefined; VStr "c"]) ]).
Proof. eexists. split; [reflexivity | vm_compute; reflexivity]. Qed.

(** *** C2 *)

Lemma zipItems_unsupported k pre : forall i ies cur bad post,
  Forall (fun item => supported item = true) pre ->
  instanceofArray bad = false -> tagged bad = false ->
  exists ies',
    ZippedEnumerator.zipItems k i (pre ++ bad :: post) ies cur
    = (Throw (ZippedEnumerator.unsupported (i + length pre)), ies').
Proof.
  induction pre as [|item pre IH]; intros i ies cur bad post Hsup Hbad Htag; simpl.
  - unfold tagged in Htag. rewrite Hbad, Htag.
    rewrite Nat.add_0_r. by eexists.
  - inversion Hsup as [|? ? Hitem Hpre]; subst.
    replace (i + S (length pre))%nat with (S i + length pre)%nat by lia.
    destruct (instanceofArray item) eqn:Ea; [by apply IH |].
    destruct (supported_tagged item Ea Hitem) as [Ht Hcall].
    unfold tagged in Ht. rewrite Ht, Hcall.
    destruct (ies !! i) as [c|]; destruct (Cursor.moveNext _) as [hasNext c'];
      by apply IH.
Qed.

(** C2, as stated, fails: the constructor only stores its arguments.  A
    zipped cursor over a secondary that is a number is constructed without
    an error; the TypeError comes from the first [moveNext], and with an
    empty primary it never comes. *)
Lemma zipped_constructor_accepts_unsupported :
  ZippedEnumerator.constructor (Abstract.ofArray [VNum 1]) [VNum 5]
  = Return {| ZippedEnumerator.previous := Abstract.ofArray [VNum 1];
              ZippedEnumerator.items := [VNum 5];
              ZippedEnumerator.current := None; ZippedEnumerator.index := -1;
              ZippedEnumerator.enumerator := None;
              ZippedEnumerator.itemsEnumerators := ∅ |} /\
  fst (ZippedEnumerator.moveNext
         {| ZippedEnumerator.previous := Abstract.ofArray [VNum 1];
            ZippedEnumerator.items := [VNum 5];
            ZippedEnumerator.current := None; ZippedEnumerator.index := -1;
            ZippedEnumerator.enumerator := None;
            ZippedEnumerator.itemsEnumerators := ∅ |})
  = Throw (TypeError
      "Collection at argument 0 should implement Types/collection#IEnumerable") /\
  ZippedEnumerator.traverse 1
    {| ZippedEnumerator.previous := Abstract.ofArray [];
       ZippedEnumerator.items := [VNum 5];
       ZippedEnumerator.current := None; ZippedEnumerator.index := -1;
       ZippedEnumerator.enumerator := None;
       ZippedEnumerator.itemsEnumerators := ∅ |}
  = Some (Return []).
Proof. repeat split. Qed.

(** C2 (amended): constructing the zipped cursor never raises.  When the
    secondary at position [length pre] fails both tests of [moveNext], being
    no native array and carrying no truthy IEnumerable tag (and those before
    it are arrays or enumerables), the TypeError naming that position is
    raised by the first [moveNext], provided the primary has an element;
    over an empty primary [moveNext] answers [false] and nothing is raised. *)
Theorem zipped_unsupported_raised_by_moveNext
    (p : Abstract.t) (pre post : list value) (bad : value) :
  Forall (fun item => supported item = true) pre ->
  instanceofArray bad = false ->
  tagged bad = false ->
  exists z,
    ZippedEnumerator.constructor p (pre ++ bad :: post) = Return z /\
    (Abstract.entries p <> [] ->
       fst (ZippedEnumerator.moveNext z)
       = Throw (ZippedEnumerator.unsupported (length pre))) /\
    (Abstract.entries p = [] -> fst (ZippedEnumerator.moveNext z) = Return false).
Proof.
  intros Hsup Hbad Htag. eexists. split; [done |].
  unfold ZippedEnumerator.moveNext, Abstract.getEnumerator; simpl.
  rewrite <- cursorAfter_0, cursorAfter_moveNext. split.
  - intros Hne. rewrite bool_decide_eq_true_2
      by (destruct (Abstract.entries p); simpl; [done | lia]).
    match goal with
    | |- context [ZippedEnumerator.zipItems ?k ?i _ ?ies ?cur] =>
      destruct (zipItems_unsupported k pre i ies cur bad post Hsup Hbad Htag)
        as (ies' & Hz)
    end.
    by rewrite Hz.
  - intros ->. done.
Qed.

Lemma zipped_unsupported_raised_by_moveNext_witness :
  exists z,
    ZippedEnumerator.constructor (Abstract.ofArray [VNum 1])
      ([VObject 1 (OArray [VStr "a"])] ++ VNum 5 :: []) = Return z /\
    (Abstract.entries (Abstract.ofArray [VNum 1]) <> [] ->
       fst (ZippedEnumerator.moveNext z)
       = Throw (ZippedEnumerator.unsupported (length [VObject 1 (OArray [VStr "a"])]))) /\
    (Abstract.entries (Abstract.ofArray [VNum 1]) = [] ->
       fst (ZippedEnumerator.moveNext z) = Return false).
Proof.
  apply (zipped_unsupported_raised_by_moveNext
           (Abstract.ofArray [VNum 1]) [VObject 1 (OArray [VStr "a"])] []
           (VNum 5)).
  - repeat constructor.
  - reflexivity.
  - reflexivity.
Defined.

(** A secondary that carries the tag without being a collection passes the
    test; the call of its missing [getEnumerator] fails instead. *)
Example zip_with_tagged_literal :
  fst (ZippedEnumerator.moveNext
         {| ZippedEnumerator.previous := Abstract.ofArray [VNum 1];
            ZippedEnumerator.items :=
              [VObject 1 (OPlain [("[Types/_collection/IEnumerable]", VBool true)])];
            ZippedEnumerator.current := None; ZippedEnumerator.index := -1;
            ZippedEnumerator.enumerator := None;
            ZippedEnumerator.itemsEnumerators := ∅ |})
  = Throw (TypeError "item.getEnumerator is not a function").
Proof. reflexivity. Qed.

(** ** SortedEnumerator *)

Lemma insertSorted_permutation cmp x l :
  Permutation (insertSorted cmp x l) (x :: l).
Proof.
  induction l as [|y l IH]; simpl; [done |].
  destruct (cmp x y <=? 0); [done |].
  rewrite IH. apply perm_swap.
Qed.

Lemma insertionSort_permuting : PermutingSort insertionSort.
Proof.
  intros cmp l. induction l as [|x l IH]; simpl; [done |].
  by rewrite insertSorted_permutation, IH.
Qed.



Lemma insertBehind_permutation cmp x l :
  Permutation (insertBehind cmp x l) (x :: l).
Proof.
  induction l as [|y l IH]; simpl; [done |].
  destruct (cmp y x <? 0); [| done].
  rewrite IH. apply perm_swap.
Qed.

Lemma insertionSortBehind_permuting : PermutingSort insertionSortBehind.
Proof.
  intros cmp l. induction l as [|x l IH]; simpl; [done |].
  by rewrite insertBehind_permutation, IH.
Qed.





Section SortedFacts.

Variable sort : SortedEnumerator.CompareFunction -> list SortWrapper.t -> list SortWrapper.t.
Variables strictEq greater : SortWrapper.t -> SortWrapper.t -> bool.

Lemma unwrap_wrap (l : list entry) :
  map (fun w => (SortWrapper.indexOf w, SortWrapper.valueOf w))
    (map (fun '(index, item) => SortWrapper.new item index) l) = l.
Proof.
  rewrite map_map. rewrite <- (map_id l) at 2.
  apply map_ext. by intros [i x].
Qed.

Lemma getItems_first (p : Abstract.t) (cmp : option SortedEnumerator.CompareFunction) :
  fst (SortedEnumerator._getItems sort (SortedEnumerator.constructor strictEq greater p cmp))
  = imap (fun index item =>
            (if Abstract.shouldSaveIndices p then SortWrapper.indexOf item
             else VNum (Z.of_nat index),
             SortWrapper.valueOf item))
      (SortedEnumerator.sortedWrappers sort
         (SortedEnumerator.constructor strictEq greater p cmp)).
Proof. reflexivity. Qed.

Lemma imap_const_map {A B} (f : A -> B) (l : list A) :
  imap (fun _ x => f x) l = map f l.
Proof. induction l as [|x l IH]; simpl; [done |]. by rewrite <- IH. Qed.

Lemma map_imap {A B C} (g : B -> C) (l : list A) : forall f : nat -> A -> B,
  map g (imap f l) = imap (fun i x => g (f i x)) l.
Proof.
  induction l as [|x l IH]; intros f; simpl; [done |].
  f_equal. apply IH.
Qed.

Lemma imap_index_seq {A B} (l : list A) : forall g : nat -> B,
  imap (fun i _ => g i) l = map g (seq 0 (length l)).
Proof.
  induction l as [|x l IH]; intros g; simpl; [done |].
  f_equal. rewrite <- seq_shift, map_map. apply (IH (fun i => g (S i))).
Qed.

(** *** C6 *)

(** C6: the first [_getItems] of a Sorted cursor unwraps the wrappers in
    their order after the sort pass.  When the upstream link declares
    [shouldSaveIndices], every output pair carries the pre-sort index of its
    element: the output pairs are the upstream pairs, rearranged.  Otherwise
    the output indices are [0 .. n-1] in output order, [n] being the number
    of upstream elements.  (The host's sort is taken to rearrange its input.) *)
Theorem sorted_indices (p : Abstract.t) (cmp : option SortedEnumerator.CompareFunction) :
  PermutingSort sort ->
  let e := SortedEnumerator.constructor strictEq greater p cmp in
  let items := fst (SortedEnumerator._getItems sort e) in
  map snd items = map SortWrapper.valueOf (SortedEnumerator.sortedWrappers sort e) /\
  (Abstract.shouldSaveIndices p = true ->
     map fst items = map SortWrapper.indexOf (SortedEnumerator.sortedWrappers sort e) /\
     Permutation items (Abstract.entries p)) /\
  (Abstract.shouldSaveIndices p = false ->
     map fst items
     = map (fun i => VNum (Z.of_nat i)) (seq 0 (length (Abstract.entries p))) /\
     Permutation (map snd items) (map snd (Abstract.entries p))).
Proof.
  intros Hperm. cbv zeta. rewrite getItems_first.
  set (e := SortedEnumerator.constructor strictEq greater p cmp).
  assert (Hs : Permutation (SortedEnumerator.sortedWrappers sort e)
                 (map (fun '(index, item) => SortWrapper.new item index)
                    (Abstract.entries p))) by apply Hperm.
  assert (Hsnd : forall b : bool,
            map snd (imap (fun index item =>
                       (if b then SortWrapper.indexOf item
                        else VNum (Z.of_nat index), SortWrapper.valueOf item))
                     (SortedEnumerator.sortedWrappers sort e))
            = map SortWrapper.valueOf (SortedEnumerator.sortedWrappers sort e)).
  { intros b. rewrite map_imap. simpl. apply imap_const_map. }
  split; [apply Hsnd |]. split; intros ->.
  - rewrite imap_const_map. split.
    + by rewrite map_map.
    + rewrite <- (unwrap_wrap (Abstract.entries p)).
      by apply Permutation_map.
  - split.
    + rewrite map_imap. simpl.
      rewrite (imap_index_seq _ (fun i => VNum (Z.of_nat i))). do 2 f_equal.
      apply Permutation_length in Hs. by rewrite Hs, length_map.
    + rewrite (Hsnd false).
      replace (map snd (Abstract.entries p))
        with (map SortWrapper.valueOf
                (map (fun '(index, item) => SortWrapper.new item index)
                   (Abstract.entries p))).
      * by apply Permutation_map.
      * rewrite map_map. apply map_ext. by intros [i x].
Qed.

(** *** C7 *)


End SortedFacts.

Lemma sorted_indices_witness :
  (map fst (fst (SortedEnumerator._getItems insertionSort
                   (SortedEnumerator.constructor sameWrapper greaterNumber
                      {| Abstract.entries := [(VStr "b", VNum 2); (VStr "a", VNum 1)];
                         Abstract.shouldSaveIndices := true |}
                      (Some byValue))))
   = [VStr "a"; VStr "b"]) /\
  (map fst (fst (SortedEnumerator._getItems insertionSort
                   (SortedEnumerator.constructor sameWrapper greaterNumber
                      {| Abstract.entries := [(VStr "b", VNum 2); (VStr "a", VNum 1)];
                         Abstract.shouldSaveIndices := false |}
                      (Some byValue))))
   = [VNum 0; VNum 1]).
Proof.
  split.
  - destruct (sorted_indices insertionSort sameWrapper greaterNumber
                {| Abstract.entries := [(VStr "b", VNum 2); (VStr "a", VNum 1)];
                   Abstract.shouldSaveIndices := true |}
                (Some byValue) insertionSort_permuting) as (_ & Hsave & _).
    destruct (Hsave eq_refl) as [-> _]. reflexivity.
  - destruct (sorted_indices insertionSort sameWrapper greaterNumber
                {| Abstract.entries := [(VStr "b", VNum 2); (VStr "a", VNum 1)];
                   Abstract.shouldSaveIndices := false |}
                (Some byValue) insertionSort_permuting) as (_ & _ & Hrenum).
    destruct (Hrenum eq_refl) as [-> _]. reflexivity.
Defined.

Example sorted_keyed_source :
  fst (SortedEnumerator._getItems insertionSort
         (SortedEnumerator.constructor sameWrapper greaterNumber
            {| Abstract.entries := [(VStr "b", VNum 2); (VStr "a", VNum 1)];
               Abstract.shouldSaveIndices := true |} None))
  = [(VStr "a", VNum 1); (VStr "b", VNum 2)].
Proof. reflexivity. Qed.




(** ** factory *)

Lemma factory_result_is_link fresh source link :
  Factory.factory fresh source = Return link -> Factory.isAbstract link = true.
Proof.
  unfold Factory.factory.
  destruct (Factory.isAbstract source) eqn:Ea; [by intros [= <-] |].
  destruct (Factory.isTagged source); [by intros [= <-] |].
  destruct (Factory.isArray source); [by intros [= <-] |].
  destruct (Factory.isObject source); [by intros [= <-] |].
  by destruct (Factory.stringOf source).
Qed.

Lemma primitive_untagged v :
  instanceofObject v = false -> truthy v && truthy (IEnumerableTag v) = false.
Proof. destruct v as [| |[]|n|s|r o]; try done; intros _; apply andb_false_r. Qed.

(** *** C4 *)

(** C4, as stated, fails for a key-value object made without a prototype:
    it is no instance of Object, so it is not wrapped in the keyed adapter,
    and the error it meets is not the one of [factory]: the template literal
    that is to name the value cannot convert it and throws first. *)
Lemma factory_rejects_bare_object :
  Factory.factory 9 (Factory.Bare [("k", VStr "a")])
  = Throw (TypeError "Cannot convert object to primitive value") /\
  Factory.isObject (Factory.Bare [("k", VStr "a")]) = false /\
  forall shown,
    TypeError "Cannot convert object to primitive value" <> Factory.unsupported shown.
Proof. split; [done |]. split; [done |]. intros shown. discriminate. Qed.

(** C4 (amended): [factory] returns a chain link unchanged; otherwise it
    wraps an input that carries a truthy IEnumerable tag in the Enumerable
    adapter, be it an array or a bare object; otherwise an array in the
    positional adapter; otherwise an instance of Object in the keyed
    adapter.  Every other input makes it throw a TypeError: for a primitive
    with a string form the one whose message quotes it, for an untagged
    object without a prototype and for a symbol the one of the failed
    conversion.  Each case applies only when the ones before it do not.  What [factory]
    returns is a chain link, so applying it again returns the same link. *)
Theorem factory_classifies_in_order (fresh : nat) (source : Factory.Source) :
  (Factory.isAbstract source = true ->
   Factory.factory fresh source = Return source) /\
  (Factory.isAbstract source = false ->
   Factory.isTagged source = true ->
   Factory.factory fresh source = Return (Factory.Enumerable fresh source)) /\
  (Factory.isAbstract source = false ->
   Factory.isTagged source = false ->
   Factory.isArray source = true ->
   Factory.factory fresh source = Return (Factory.Arraywise fresh source)) /\
  (Factory.isAbstract source = false ->
   Factory.isTagged source = false ->
   Factory.isArray source = false ->
   Factory.isObject source = true ->
   Factory.factory fresh source = Return (Factory.Objectwise fresh source)) /\
  (forall v, source = Factory.Ordinary v ->
   instanceofObject v = false ->
   Factory.factory fresh source = Throw (Factory.unsupported (toString v))) /\
  (forall props, source = Factory.Bare props ->
   Factory.isTagged source = false ->
   Factory.factory fresh source
   = Throw (TypeError "Cannot convert object to primitive value")) /\
  (forall description, source = Factory.SymbolOf description ->
   Factory.factory fresh source
   = Throw (TypeError "Cannot convert a Symbol value to a string")) /\
  (forall link fresh',
     Factory.factory fresh source = Return link ->
     Factory.factory fresh' link = Return link).
Proof.
  unfold Factory.factory.
  split; [| split; [| split; [| split; [| split; [| split; [| split]]]]]].
  - by intros ->.
  - by intros -> ->.
  - by intros -> -> ->.
  - by intros -> -> -> ->.
  - intros v -> Hv. simpl. rewrite (primitive_untagged v Hv), Hv.
    by destruct v as [| | | | |r o].
  - intros props -> Ht. by rewrite Ht.
  - by intros description ->.
  - intros link fresh' Hl.
    apply (factory_result_is_link fresh source link) in Hl. by rewrite Hl.
Qed.

Lemma factory_classifies_in_order_witness :
  Factory.factory 9 (Factory.Ordinary (VObject 1 (OChain "Mapped" [(VNum 0, VStr "a")])))
    = Return (Factory.Ordinary (VObject 1 (OChain "Mapped" [(VNum 0, VStr "a")]))) /\
  Factory.factory 9 (Factory.Ordinary (VObject 2 (OEnumerable [(VNum 0, VStr "a")])))
    = Return (Factory.Ordinary (VObject 9 (OChain "Enumerable" [(VNum 0, VStr "a")]))) /\
  Factory.factory 9
    (Factory.Ordinary
       (VObject 3 (OArrayWith [VStr "a"]
                     [("[Types/_collection/IEnumerable]", VBool true)])))
    = Return (Factory.Ordinary (VObject 9 (OChain "Enumerable" []))) /\
  Factory.factory 9
    (Factory.Ordinary
       (VObject 4 (OPlain [("[Types/_collection/IEnumerable]", VNum 1)])))
    = Return (Factory.Ordinary (VObject 9 (OChain "Enumerable" []))) /\
  Factory.factory 9 (Factory.Ordinary (VObject 3 (OArray [VStr "a"])))
    = Return (Factory.Ordinary (VObject 9 (OChain "Arraywise" [(VNum 0, VStr "a")]))) /\
  Factory.factory 9 (Factory.Ordinary (VObject 4 (OPlain [("k", VStr "a")])))
    = Return (Factory.Ordinary (VObject 9 (OChain "Objectwise" [(VStr "k", VStr "a")]))) /\
  Factory.factory 9 (Factory.Ordinary (VNum (10 ^ 21)))
    = Throw (TypeError ("Unsupported source type " +:+ Factory.quote +:+ "1e+21"
                        +:+ Factory.quote
                        +:+ ": only Array or Object are supported.")) /\
  Factory.factory 9 (Factory.Ordinary VNull)
    = Throw (Factory.unsupported "null") /\
  Factory.factory 9 (Factory.Bare [("k", VStr "a")])
    = Throw (TypeError "Cannot convert object to primitive value") /\
  Factory.factory 9 (Factory.SymbolOf "s")
    = Throw (TypeError "Cannot convert a Symbol value to a string") /\
  Factory.factory 10
    (Factory.Ordinary (VObject 9 (OChain "Arraywise" [(VNum 0, VStr "a")])))
    = Return (Factory.Ordinary (VObject 9 (OChain "Arraywise" [(VNum 0, VStr "a")]))).
Proof.
  split; [| split; [| split; [| split; [| split; [| split; [| split;
    [| split; [| split; [| split]]]]]]]]].
  - by apply (factory_classifies_in_order 9
                (Factory.Ordinary (VObject 1 (OChain "Mapped" [(VNum 0, VStr "a")])))).
  - by apply (factory_classifies_in_order 9
                (Factory.Ordinary (VObject 2 (OEnumerable [(VNum 0, VStr "a")])))).
  - by apply (factory_classifies_in_order 9
                (Factory.Ordinary
                   (VObject 3 (OArrayWith [VStr "a"]
                                 [("[Types/_collection/IEnumerable]", VBool true)])))).
  - by apply (factory_classifies_in_order 9
                (Factory.Ordinary
                   (VObject 4 (OPlain [("[Types/_collection/IEnumerable]", VNum 1)])))).
  - by apply (factory_classifies_in_order 9
                (Factory.Ordinary (VObject 3 (OArray [VStr "a"])))).
  - by apply (factory_classifies_in_order 9
                (Factory.Ordinary (VObject 4 (OPlain [("k", VStr "a")])))).
  - destruct (factory_classifies_in_order 9 (Factory.Ordinary (VNum (10 ^ 21))))
      as (_ & _ & _ & _ & Hprim & _).
    rewrite (Hprim (VNum (10 ^ 21))) by done. vm_compute. reflexivity.
  - destruct (factory_classifies_in_order 9 (Factory.Ordinary VNull))
      as (_ & _ & _ & _ & Hprim & _).
    by apply (Hprim VNull).
  - destruct (factory_classifies_in_order 9 (Factory.Bare [("k", VStr "a")]))
      as (_ & _ & _ & _ & _ & Hbare & _).
    by apply (Hbare [("k", VStr "a")]).
  - destruct (factory_classifies_in_order 9 (Factory.SymbolOf "s"))
      as (_ & _ & _ & _ & _ & _ & Hsym & _).
    by apply (Hsym "s").
  - by apply (factory_classifies_in_order 9
                (Factory.Ordinary (VObject 3 (OArray [VStr "a"])))).
Defined.

(** ** FlattenedEnumerator *)

Section FlattenedFacts.

Variable Mover : Type.
Variable newMover : Cursor.t -> Mover.
Variable moverMoveNext : Mover -> bool * Mover.
Variable moverGetCurrent : Mover -> value.

Abbreviation flatMoveNext := (FlattenedEnumerator.moveNext Mover newMover moverMoveNext).
Abbreviation flatAdvances := (FlattenedEnumerator.advances Mover newMover moverMoveNext).
Abbreviation flatTraverse :=
  (FlattenedEnumerator.traverse Mover newMover moverMoveNext moverGetCurrent).

Lemma flattened_moveNext_index (e : FlattenedEnumerator.t Mover) :
  FlattenedEnumerator.index Mover (snd (flatMoveNext e))
  = if fst (flatMoveNext e) then FlattenedEnumerator.index Mover e + 1
    else FlattenedEnumerator.index Mover e.
Proof.
  unfold FlattenedEnumerator.moveNext. by destruct (moverMoveNext _) as [[] m'].
Qed.

Lemma flattened_advances_index calls : forall e : FlattenedEnumerator.t Mover,
  FlattenedEnumerator.index Mover (snd (flatAdvances calls e))
  = FlattenedEnumerator.index Mover e + Z.of_nat (fst (flatAdvances calls e)).
Proof.
  induction calls as [|calls IH]; intros e; simpl; [lia |].
  pose proof (flattened_moveNext_index e) as Hm.
  destruct (flatMoveNext e) as [hasNext e'] eqn:Ee. simpl in Hm.
  specialize (IH e').
  destruct (flatAdvances calls e') as [n e''] eqn:Ea. simpl in *.
  destruct hasNext; simpl; lia.
Qed.

Lemma flattened_traverse_indices fuel : forall e : FlattenedEnumerator.t Mover,
  map fst (flatTraverse fuel e)
  = map (fun i => FlattenedEnumerator.index Mover e + 1 + Z.of_nat i)
      (seq 0 (length (flatTraverse fuel e))).
Proof.
  induction fuel as [|fuel IH]; intros e; simpl; [done |].
  pose proof (flattened_moveNext_index e) as Hm.
  destruct (flatMoveNext e) as [[] e'] eqn:Ee; simpl in *; [| done].
  rewrite IH, <- seq_shift, map_map.
  unfold FlattenedEnumerator.getCurrentIndex. f_equal; [lia |].
  apply map_ext. intros i. lia.
Qed.

End FlattenedFacts.

(** *** C8 *)

(** C8: whatever the mover does, the index of a flattened cursor counts the
    successful advances: after any run of [moveNext] calls on a new cursor
    of which [n] answered [true] the current index is [n - 1]; the pairs a
    traversal collects carry the indices [0, 1, 2, ...] in order; [reset]
    brings the cursor back to the state it was constructed in, index [-1]
    and no mover, so the count starts again.  The index never looks at the
    nesting or at the upstream indices.  With the mover of the
    specification, [flatten([1,[2,[3,4]],5])] yields [1,2,3,4,5] under the
    indices [0,1,2,3,4]. *)
Theorem flattened_index_counts_advances
    (Mover : Type) (newMover : Cursor.t -> Mover)
    (moverMoveNext : Mover -> bool * Mover) (moverGetCurrent : Mover -> value)
    (p : Abstract.t) (e : FlattenedEnumerator.t Mover) (calls fuel : nat) :
  FlattenedEnumerator.getCurrentIndex Mover
    (snd (FlattenedEnumerator.advances Mover newMover moverMoveNext calls
            (FlattenedEnumerator.constructor Mover p)))
  = Z.of_nat (fst (FlattenedEnumerator.advances Mover newMover moverMoveNext calls
                     (FlattenedEnumerator.constructor Mover p))) - 1 /\
  map fst (FlattenedEnumerator.traverse Mover newMover moverMoveNext moverGetCurrent fuel
             (FlattenedEnumerator.constructor Mover p))
  = map Z.of_nat
      (seq 0 (length (FlattenedEnumerator.traverse Mover newMover moverMoveNext
                        moverGetCurrent fuel (FlattenedEnumerator.constructor Mover p)))) /\
  FlattenedEnumerator.reset Mover e
  = FlattenedEnumerator.constructor Mover (FlattenedEnumerator.previous Mover e) /\
  FlattenedEnumerator.getCurrentIndex Mover (FlattenedEnumerator.reset Mover e) = -1 /\
  flatten 6
    [VNum 1;
     VObject 1 (OArray [VNum 2; VObject 2 (OArray [VNum 3; VNum 4])]);
     VNum 5]
  = [(0, VNum 1); (1, VNum 2); (2, VNum 3); (3, VNum 4); (4, VNum 5)].
Proof.
  split; [| split; [| split; [| split]]].
  - unfold FlattenedEnumerator.getCurrentIndex.
    rewrite flattened_advances_index. simpl. lia.
  - rewrite flattened_traverse_indices. apply map_ext. intros i. simpl. lia.
  - reflexivity.
  - reflexivity.
  - vm_compute. reflexivity.
Qed.

(** ** Objectwise *)

(** *** C9 *)

(** C9, as stated, fails for [undefined]: the constructor replaces it by an
    empty object literal and returns an enumerator without keys. *)
Lemma objectwise_accepts_undefined :
  Objectwise.constructor 0 VUndefined
  = Return {| Objectwise._items := VObject 0 (OPlain []);
              Objectwise._keys := [];
              Objectwise._index := -1;
              Objectwise._filter := None |}.
Proof. reflexivity. Qed.

(** C9 (amended): the constructor throws for every argument that is not an
    object, [null] included, except [undefined], which it replaces by an
    empty object; for an object it returns the enumerator over the object's
    own keys, standing before the first of them. *)
Theorem objectwise_rejects_non_objects (fresh : nat) (items : value) :
  (instanceofObject items = false -> items <> VUndefined ->
   Objectwise.constructor fresh items
   = Throw (GenericError "Argument items should be an instance of Object")) /\
  (items = VUndefined ->
   Objectwise.constructor fresh items
   = Return {| Objectwise._items := VObject fresh (OPlain []);
               Objectwise._keys := [];
               Objectwise._index := -1;
               Objectwise._filter := None |}) /\
  (instanceofObject items = true ->
   Objectwise.constructor fresh items
   = Return {| Objectwise._items := items;
               Objectwise._keys := keys items;
               Objectwise._index := -1;
               Objectwise._filter := None |}).
Proof.
  split; [| split].
  - intros Ho Hu. by destruct items.
  - by intros ->.
  - intros Ho. by destruct items.
Qed.

Lemma objectwise_rejects_non_objects_witness :
  Objectwise.constructor 0 VNull
    = Throw (GenericError "Argument items should be an instance of Object") /\
  Objectwise.constructor 0 (VStr "abc")
    = Throw (GenericError "Argument items should be an instance of Object") /\
  Objectwise.constructor 0 (VObject 1 (OPlain [("a", VNum 1); ("b", VNum 2)]))
    = Return {| Objectwise._items := VObject 1 (OPlain [("a", VNum 1); ("b", VNum 2)]);
                Objectwise._keys := ["a"; "b"];
                Objectwise._index := -1;
                Objectwise._filter := None |}.
Proof.
  split; [| split].
  - by apply (objectwise_rejects_non_objects 0 VNull).
  - by apply (objectwise_rejects_non_objects 0 (VStr "abc")).
  - by apply (objectwise_rejects_non_objects 0
                (VObject 1 (OPlain [("a", VNum 1); ("b", VNum 2)]))).
Defined.

(** ** The mover of the specification always answers *)

Lemma weightOf_elems (elems : list value) :
  (fix go (l : list value) : nat :=
     match l with
     | [] => O
     | x :: l' => S (FlattenedMover.weight x + go l')
     end) elems
  = list_sum (map (fun x => S (FlattenedMover.weight x)) elems).
Proof.
  induction elems as [|x l IH]; simpl; [done |]. by rewrite IH.
Qed.

Lemma weightOf_entries (es : list entry) :
  (fix go (l : list entry) : nat :=
     match l with
     | [] => O
     | (_, x) :: l' => S (FlattenedMover.weight x + go l')
     end) es
  = list_sum (map (fun e => S (FlattenedMover.weight (snd e))) es).
Proof.
  induction es as [|[i x] l IH]; simpl; [done |]. by rewrite IH.
Qed.

Lemma weight_nested el :
  instanceofArray el || implementsIEnumerable el = true ->
  FlattenedMover.weight el
  = S (list_sum (map (fun e => S (FlattenedMover.weight (snd e)))
                   (Cursor.remaining (FlattenedMover.nested el)))).
Proof.
  destruct el as [| | | | |r [ps|elems|es|cls es|elems ps]]; try done; intros _;
    unfold FlattenedMover.nested; simpl.
  - rewrite weightOf_elems, Cursor_remaining_create. do 2 f_equal.
    rewrite map_imap. simpl. symmetry. apply imap_const_map.
  - by rewrite weightOf_entries.
  - by rewrite weightOf_entries.
  - rewrite weightOf_elems, Cursor_remaining_create. do 2 f_equal.
    rewrite map_imap. simpl. symmetry. apply imap_const_map.
Qed.

Lemma mover_moveNextFuel_total fuel : forall m,
  Forall (fun c => -1 <= Cursor.index c) (FlattenedMover.stack m) ->
  (FlattenedMover.measure m < fuel)%nat ->
  exists r, FlattenedMover.moveNextFuel fuel m = Some r.
Proof.
  induction fuel as [|fuel IH]; intros [stack cur] Hwf Hf; [lia |].
  simpl. destruct stack as [|c parents]; [by eexists |].
  inversion Hwf as [|? ? Hc Hparents]; subst.
  unfold FlattenedMover.measure in Hf. simpl in Hf.
  destruct (Cursor.remaining c) as [|e r] eqn:Hr.
  - rewrite (Cursor_moveNext_nil c Hc Hr).
    apply IH; [done |]. unfold FlattenedMover.measure. simpl in *. lia.
  - destruct (Cursor_moveNext_cons c e r Hc Hr)
      as (c' & -> & _ & Hi' & Hcur & _ & Hr').
    rewrite Hcur.
    destruct (instanceofArray e.2 || implementsIEnumerable e.2)
      eqn:Hn; [| by eexists].
    apply IH.
    + repeat constructor; [| lia | done].
      by destruct (snd e) as [| | | | |? [ | | | | ]].
    + unfold FlattenedMover.measure. simpl in *.
      rewrite Hr'. rewrite (weight_nested _ Hn) in Hf. lia.
Qed.

Lemma mover_moveNext_total m :
  Forall (fun c => -1 <= Cursor.index c) (FlattenedMover.stack m) ->
  FlattenedMover.moveNextFuel (S (FlattenedMover.measure m)) m
  = Some (FlattenedMover.moveNext m).
Proof.
  intros Hwf. unfold FlattenedMover.moveNext.
  by destruct (mover_moveNextFuel_total (S (FlattenedMover.measure m)) m Hwf)
    as [r ->]; [lia |].
Qed.

Lemma mover_moveNextFuel_stack fuel : forall m r,
  Forall (fun c => -1 <= Cursor.index c) (FlattenedMover.stack m) ->
  FlattenedMover.moveNextFuel fuel m = Some r ->
  Forall (fun c => -1 <= Cursor.index c) (FlattenedMover.stack (snd r)).
Proof.
  induction fuel as [|fuel IH]; intros [stack cur] r Hwf; [done |].
  simpl. destruct stack as [|c parents]; [by intros [= <-] |].
  inversion Hwf as [|? ? Hc Hparents]; subst.
  unfold Cursor.moveNext.
  destruct (1 + Cursor.index c >=? Z.of_nat (length (Cursor.items c))) eqn:E.
  - by apply IH.
  - match goal with
    | |- context [if ?b then _ else _] => destruct b
    end.
    + apply IH. repeat constructor; simpl; [| lia | done].
      unfold FlattenedMover.nested, getEnumerator, Cursor.create.
      repeat case_match; simpl; lia.
    + intros [= <-]. simpl. constructor; simpl; [lia | done].
Qed.

Example flatten_enumerable :
  flatten 5
    [VObject 1 (OEnumerable [(VStr "a", VNum 1); (VStr "b", VObject 2 (OArray []))]);
     VObject 3 (OArray [VObject 4 (OArray [VNum 2])]);
     VStr "x"]
  = [(0, VNum 1); (1, VNum 2); (2, VStr "x")].
Proof. vm_compute. reflexivity. Qed.

(** * Further properties of the enumerators *)

(** ** Objectwise: advancing and the filter *)

Lemma keysAhead_cons e k ks :
  -1 <= Objectwise._index e -> keysAhead e = k :: ks ->
  Objectwise._keys e !! Z.to_nat (Objectwise._index e + 1) = Some k /\
  Z.of_nat (length ks)
    = Z.of_nat (length (Objectwise._keys e)) - Objectwise._index e - 2 /\
  keysAhead (atIndex e (Objectwise._index e + 1)) = ks.
Proof.
  intros Hi Hk. unfold keysAhead in *.
  assert (Hl : Objectwise._keys e !! Z.to_nat (Objectwise._index e + 1) = Some k).
  { rewrite <- (Nat.add_0_r (Z.to_nat _)), <- lookup_drop, Hk. done. }
  pose proof (lookup_lt_Some _ _ _ Hl) as Hlt.
  pose proof (f_equal length Hk) as Hlen. rewrite length_drop in Hlen.
  simpl in Hlen. split; [done |]. split; [lia |].
  simpl. rewrite (drop_S _ _ _ Hl) in Hk. inversion Hk as [Hk'].
  f_equal. lia.
Qed.

Lemma objectwise_shown e i k :
  0 <= i -> Objectwise._keys e !! Z.to_nat i = Some k ->
  (Objectwise.getCurrentIndex (atIndex e i), Objectwise.getCurrent (atIndex e i))
  = entryAt e k.
Proof.
  intros Hi Hk. unfold Objectwise.getCurrentIndex, Objectwise.getCurrent. simpl.
  destruct (Z.ltb_spec i 0); [lia |]. by rewrite Hk.
Qed.

(** One [moveNext], told by the keys ahead. *)
Lemma objectwise_moveNextFuel_spec ks : forall fuel e,
  -1 <= Objectwise._index e -> keysAhead e = ks -> (length ks <= fuel)%nat ->
  Objectwise.moveNextFuel fuel e =
  match dropRejected e ks with
  | [] => Some (false,
                atIndex e (Z.max (Objectwise._index e)
                             (Z.of_nat (length (Objectwise._keys e)) - 1)))
  | k :: post =>
    Some (true,
          atIndex e (Z.of_nat (length (Objectwise._keys e))
                     - Z.of_nat (length post) - 1))
  end.
Proof.
  induction ks as [|k ks IH]; intros fuel e Hi Hk Hf.
  - pose proof Hk as Hk'. unfold keysAhead in Hk'. apply drop_nil_inv in Hk'.
    simpl. destruct fuel; simpl;
      (destruct (1 + Objectwise._index e
                 >=? Z.of_nat (length (Objectwise._keys e))) eqn:E; [| lia]);
      destruct e; unfold atIndex; simpl in *; do 3 f_equal; lia.
  - destruct (keysAhead_cons e k ks Hi Hk) as (Hl & Hlen & Hnext).
    pose proof (lookup_lt_Some _ _ _ Hl) as Hlt.
    destruct fuel as [|fuel]; [simpl in Hf; lia |]. simpl.
    destruct (1 + Objectwise._index e
              >=? Z.of_nat (length (Objectwise._keys e))) eqn:E; [lia |].
    change {| Objectwise._items := Objectwise._items e;
              Objectwise._keys := Objectwise._keys e;
              Objectwise._index := Objectwise._index e + 1;
              Objectwise._filter := Objectwise._filter e |}
      with (atIndex e (Objectwise._index e + 1)).
    pose proof (objectwise_shown e (Objectwise._index e + 1) k ltac:(lia) Hl) as Hs.
    injection Hs as Hs1 Hs2. rewrite Hs1, Hs2.
    unfold passes. simpl.
    destruct (Objectwise._filter e) as [f|] eqn:Ef; simpl.
    + destruct (f (getProperty (Objectwise._items e) k) (VStr k)) eqn:Efk; simpl.
      * do 3 f_equal. lia.
      * rewrite (IH fuel (atIndex e (Objectwise._index e + 1)));
          [| simpl; lia | done | simpl in Hf; lia].
        assert (Hd : dropRejected (atIndex e (Objectwise._index e + 1)) ks
                     = dropRejected e ks).
        { clear. induction ks as [|k' ks' IHk]; simpl; [done |].
          unfold passes, entryAt. simpl. by rewrite IHk. }
        rewrite Hd. destruct (dropRejected e ks); simpl;
          unfold atIndex; simpl; do 3 f_equal; lia.
    + do 3 f_equal. lia.
Qed.

Lemma dropRejected_suffix e ks :
  exists pre, ks = pre ++ dropRejected e ks /\
              Forall (fun k => passes (Objectwise._filter e) (entryAt e k) = false) pre.
Proof.
  induction ks as [|k ks (pre & Hks & Hpre)]; simpl.
  - by exists [].
  - destruct (passes _ (entryAt e k)) eqn:Ep.
    + by exists [].
    + exists (k :: pre). split; [simpl; congruence | by constructor].
Qed.

Lemma dropRejected_head e ks k post :
  dropRejected e ks = k :: post -> passes (Objectwise._filter e) (entryAt e k) = true.
Proof.
  induction ks as [|k' ks IH]; simpl; [done |].
  destruct (passes _ (entryAt e k')) eqn:Ep; [| done].
  by intros [= -> _].
Qed.

Lemma filter_rejected_app e pre ks :
  Forall (fun k => passes (Objectwise._filter e) (entryAt e k) = false) pre ->
  List.filter (passes (Objectwise._filter e)) (map (entryAt e) (pre ++ ks))
  = List.filter (passes (Objectwise._filter e)) (map (entryAt e) ks).
Proof.
  induction 1 as [|k pre Hk _ IH]; simpl; [done |]. by rewrite Hk.
Qed.

Lemma objectwise_traverse_from fuel : forall e,
  -1 <= Objectwise._index e -> (length (keysAhead e) < fuel)%nat ->
  Objectwise.traverse fuel e
  = Some (List.filter (passes (Objectwise._filter e))
            (map (entryAt e) (keysAhead e))).
Proof.
  induction fuel as [|fuel IH]; intros e Hi Hf; [lia |].
  simpl. unfold Objectwise.moveNext.
  rewrite (objectwise_moveNextFuel_spec (keysAhead e)); [| done | done |].
  2:{ unfold keysAhead. rewrite length_drop. lia. }
  destruct (dropRejected_suffix e (keysAhead e)) as (pre & Hks & Hpre).
  pose proof (dropRejected_head e (keysAhead e)) as Hhead.
  destruct (dropRejected e (keysAhead e)) as [|k post] eqn:Ed.
  - rewrite Hks, filter_rejected_app by done. by simpl.
  - specialize (Hhead k post eq_refl).
    set (e' := atIndex e (Z.of_nat (length (Objectwise._keys e))
                          - Z.of_nat (length post) - 1)).
    assert (Hsplit : exists A, Objectwise._keys e = A ++ k :: post).
    { exists (take (Z.to_nat (Objectwise._index e + 1)) (Objectwise._keys e) ++ pre).
      rewrite <- app_assoc, <- Hks. unfold keysAhead. by rewrite take_drop. }
    destruct Hsplit as [A HA].
    assert (Hn : Z.of_nat (length (Objectwise._keys e))
                 - Z.of_nat (length post) - 1 = Z.of_nat (length A)).
    { rewrite HA, length_app. simpl. lia. }
    assert (Hahead : keysAhead e' = post).
    { unfold keysAhead, e'. simpl. rewrite Hn, HA.
      rewrite drop_app_ge by lia.
      replace (Z.to_nat (Z.of_nat (length A) + 1) - length A)%nat with 1%nat by lia.
      done. }
    assert (Hlk : Objectwise._keys e
                  !! Z.to_nat (Z.of_nat (length (Objectwise._keys e))
                               - Z.of_nat (length post) - 1) = Some k).
    { rewrite Hn, Nat2Z.id, HA. by rewrite list_lookup_middle. }
    assert (Hpost : (length post < fuel)%nat).
    { rewrite Hks, length_app in Hf. simpl in Hf. lia. }
    rewrite (IH e'); [| simpl; lia | by rewrite Hahead].
    rewrite Hahead. unfold e'. rewrite (objectwise_shown e _ k); [| lia | done].
    rewrite Hks, filter_rejected_app by done. simpl. by rewrite Hhead.
Qed.

Lemma dropRejected_position e k post :
  -1 <= Objectwise._index e ->
  dropRejected e (keysAhead e) = k :: post ->
  Objectwise._index e
    < Z.of_nat (length (Objectwise._keys e)) - Z.of_nat (length post) - 1 /\
  Objectwise._keys e
    !! Z.to_nat (Z.of_nat (length (Objectwise._keys e))
                 - Z.of_nat (length post) - 1) = Some k.
Proof.
  intros Hi Hd.
  destruct (dropRejected_suffix e (keysAhead e)) as (pre & Hks & _).
  rewrite Hd in Hks.
  pose proof (take_drop (Z.to_nat (Objectwise._index e + 1))
                (Objectwise._keys e)) as Htd.
  fold (keysAhead e) in Htd. rewrite Hks, app_assoc in Htd.
  pose proof (f_equal length Htd) as Hlen.
  rewrite !length_app, length_take in Hlen. simpl in Hlen.
  pose proof (f_equal length Hks) as Hlen'.
  unfold keysAhead in Hlen'. rewrite length_drop, length_app in Hlen'.
  simpl in Hlen'. split; [lia |].
  rewrite <- Htd at 2. rewrite lookup_app_r; rewrite !length_app, length_take;
    [| lia].
  match goal with |- _ !! ?n = _ => replace n with 0%nat by lia end. done.
Qed.

Lemma find_own_property (props : list (string * value)) k x :
  NoDup (map fst props) -> (k, x) ∈ props ->
  find (fun p => String.eqb (fst p) k) props = Some (k, x).
Proof.
  induction props as [|[k' x'] props IH]; simpl; intros Hnd Hin.
  - by apply elem_of_nil in Hin.
  - apply NoDup_cons in Hnd as [Hk' Hnd].
    apply elem_of_cons in Hin as [[= <- <-]|Hin].
    + by rewrite String.eqb_refl.
    + destruct (String.eqb_spec k' k) as [->|Hne]; [| by apply IH].
      exfalso. apply Hk'. apply list_elem_of_In, in_map_iff.
      exists (k, x). split; [done |]. by apply list_elem_of_In.
Qed.

(** X1: a keyed enumerator that was reset (or just made) yields, as
    (key, value) pairs in key order, exactly the properties that the
    installed filter lets through, all of them when there is no filter;
    [setFilter] decides this for the traversals that follow. *)
Theorem objectwise_yields_passing_properties
    (e : Objectwise.t) (filter : option (value -> value -> bool)) :
  Objectwise.traverse (S (length (Objectwise._keys e))) (Objectwise.reset e)
  = Some (List.filter (passes (Objectwise._filter e))
            (map (entryAt e) (Objectwise._keys e))) /\
  Objectwise.traverse (S (length (Objectwise._keys e)))
    (Objectwise.reset (Objectwise.setFilter e filter))
  = Some (List.filter (passes filter) (map (entryAt e) (Objectwise._keys e))).
Proof.
  split.
  - rewrite (objectwise_traverse_from _ (Objectwise.reset e)); [done | simpl; lia |].
    unfold keysAhead. rewrite length_drop. simpl. lia.
  - rewrite (objectwise_traverse_from _
               (Objectwise.reset (Objectwise.setFilter e filter)));
      [done | simpl; lia |].
    unfold keysAhead. rewrite length_drop. simpl. lia.
Qed.

(** X2: over an object whose own keys are pairwise different, the enumerator
    the constructor returns yields every own property once, as the pair of
    its key (a string, also for an array) and its value, in [Object.keys]
    order. *)
Theorem objectwise_enumerates_own_properties (fresh : nat) (items : value) :
  instanceofObject items = true ->
  NoDup (keys items) ->
  exists e,
    Objectwise.constructor fresh items = Return e /\
    Objectwise.traverse (S (length (keys items))) e
    = Some (map (fun '(k, x) => (VStr k, x)) (ownProperties items)).
Proof.
  intros Ho Hnd. destruct items as [| | | | |r o]; try done.
  set (v := VObject r o) in *.
  eexists. split; [reflexivity |].
  rewrite objectwise_traverse_from;
    [| simpl; lia | unfold keysAhead; rewrite length_drop; simpl; lia].
  unfold keysAhead.
  cbn [Objectwise._index Objectwise._keys Objectwise._filter].
  change (Z.to_nat (-1 + 1)) with 0%nat. rewrite drop_0. f_equal.
  rewrite forallb_filter_id by (by apply forallb_forall).
  unfold keys in *. rewrite map_map.
  apply map_ext_in. intros [k x] Hin.
  assert (Hg : getProperty v k = x).
  { unfold getProperty, propertyOf.
    by rewrite (find_own_property _ k x Hnd) by (by apply list_elem_of_In). }
  change ((VStr k, getProperty v k) = (VStr k, x)). by rewrite Hg.
Qed.

Lemma objectwise_enumerates_own_properties_witness :
  exists e,
    Objectwise.constructor 0
      (VObject 1 (OPlain [("b", VNum 2); ("a", VNum 1)])) = Return e /\
    Objectwise.traverse 3 e = Some [(VStr "b", VNum 2); (VStr "a", VNum 1)].
Proof.
  apply (objectwise_enumerates_own_properties 0
           (VObject 1 (OPlain [("b", VNum 2); ("a", VNum 1)]))).
  - reflexivity.
  - apply NoDup_ListNoDup. repeat constructor; simpl; intuition discriminate.
Defined.

(** X3: from any position at or after the start, [moveNext] answers and
    keeps the object, the keys and the filter.  When it answers [true] the
    enumerator has moved forward, stands on a key, and shows a property that
    the filter lets through.  When it answers [false] the enumerator rests on
    the last key, whether the filter let that property through or not. *)
Theorem objectwise_moveNext_step (e : Objectwise.t) :
  -1 <= Objectwise._index e ->
  exists b e',
    Objectwise.moveNext e = Some (b, e') /\
    Objectwise._items e' = Objectwise._items e /\
    Objectwise._keys e' = Objectwise._keys e /\
    Objectwise._filter e' = Objectwise._filter e /\
    if b then
      Objectwise._index e < Objectwise._index e'
        < Z.of_nat (length (Objectwise._keys e)) /\
      passes (Objectwise._filter e)
        (Objectwise.getCurrentIndex e', Objectwise.getCurrent e') = true
    else
      Objectwise._index e'
      = Z.max (Objectwise._index e) (Z.of_nat (length (Objectwise._keys e)) - 1).
Proof.
  intros Hi. unfold Objectwise.moveNext.
  rewrite (objectwise_moveNextFuel_spec (keysAhead e)); [| done | done |].
  2:{ unfold keysAhead. rewrite length_drop. lia. }
  pose proof (dropRejected_head e (keysAhead e)) as Hhead.
  pose proof (dropRejected_position e) as Hpos.
  destruct (dropRejected e (keysAhead e)) as [|k post].
  - eexists false, _. by repeat split.
  - destruct (Hpos k post Hi eq_refl) as [Hlt Hlk].
    eexists true, _. split; [done |]. repeat split; simpl; try done; try lia.
    rewrite (objectwise_shown e _ k); [| lia | done].
    by apply (Hhead k post).
Qed.

Lemma objectwise_moveNext_step_witness :
  exists b e',
    Objectwise.moveNext
      {| Objectwise._items := VObject 1 (OPlain [("a", VNum 1); ("b", VNum 2)]);
         Objectwise._keys := ["a"; "b"];
         Objectwise._index := -1;
         Objectwise._filter := Some (fun x _ => strictEquals x (VNum 7)) |}
    = Some (b, e') /\
    b = false /\ Objectwise._index e' = 1 /\
    Objectwise.getCurrent e' = VNum 2.
Proof.
  destruct (objectwise_moveNext_step
              {| Objectwise._items := VObject 1 (OPlain [("a", VNum 1); ("b", VNum 2)]);
                 Objectwise._keys := ["a"; "b"];
                 Objectwise._index := -1;
                 Objectwise._filter := Some (fun x _ => strictEquals x (VNum 7)) |})
    as (b & e' & Hm & _); [simpl; lia |].
  exists b, e'. split; [exact Hm |].
  vm_compute in Hm. injection Hm as <- <-. by repeat split.
Defined.

(** ** MappedEnumerator *)

Lemma cursorAfter_getCurrentIndex k l :
  (k < length l)%nat ->
  Cursor.getCurrentIndex (cursorAfter (S k) l)
  = match l !! k with Some e => fst e | None => VUndefined end.
Proof.
  intros Hk. unfold Cursor.getCurrentIndex, cursorAfter; simpl.
  replace (Z.of_nat (S k) `min` Z.of_nat (length l) - 1) with (Z.of_nat k) by lia.
  destruct (Z.ltb_spec (Z.of_nat k) 0); [lia |].
  by rewrite Nat2Z.id.
Qed.

Lemma cursorAfter_exhausted k l :
  (length l <= k)%nat -> cursorAfter (S k) l = cursorAfter k l.
Proof. intros Hk. unfold cursorAfter. f_equal. lia. Qed.

Lemma mapped_moveNext_some m k e :
  MappedEnumerator.enumerator m
    = cursorAfter k (Abstract.entries (MappedEnumerator.previous m)) ->
  Abstract.entries (MappedEnumerator.previous m) !! k = Some e ->
  MappedEnumerator.moveNext m
  = (true,
     {| MappedEnumerator.previous := MappedEnumerator.previous m;
        MappedEnumerator.callback := MappedEnumerator.callback m;
        MappedEnumerator.callbackContext := MappedEnumerator.callbackContext m;
        MappedEnumerator.enumerator :=
          cursorAfter (S k) (Abstract.entries (MappedEnumerator.previous m));
        MappedEnumerator.current :=
          snd (mappedEntry (MappedEnumerator.callback m)
                 (MappedEnumerator.callbackContext m) e) |}).
Proof.
  intros Hc He. pose proof (lookup_lt_Some _ _ _ He) as Hlt.
  unfold MappedEnumerator.moveNext.
  rewrite Hc, cursorAfter_moveNext, bool_decide_eq_true_2 by done.
  by rewrite cursorAfter_getCurrent, cursorAfter_getCurrentIndex, He by done.
Qed.

Lemma mapped_moveNext_none m k :
  MappedEnumerator.enumerator m
    = cursorAfter k (Abstract.entries (MappedEnumerator.previous m)) ->
  (length (Abstract.entries (MappedEnumerator.previous m)) <= k)%nat ->
  MappedEnumerator.moveNext m
  = (false,
     {| MappedEnumerator.previous := MappedEnumerator.previous m;
        MappedEnumerator.callback := MappedEnumerator.callback m;
        MappedEnumerator.callbackContext := MappedEnumerator.callbackContext m;
        MappedEnumerator.enumerator :=
          cursorAfter k (Abstract.entries (MappedEnumerator.previous m));
        MappedEnumerator.current := MappedEnumerator.current m |}).
Proof.
  intros Hc Hk. unfold MappedEnumerator.moveNext.
  rewrite Hc, cursorAfter_moveNext, bool_decide_eq_false_2 by lia.
  by rewrite cursorAfter_exhausted.
Qed.

Lemma mapped_traverse_from fuel : forall k m,
  MappedEnumerator.enumerator m
    = cursorAfter k (Abstract.entries (MappedEnumerator.previous m)) ->
  (length (Abstract.entries (MappedEnumerator.previous m)) - k < fuel)%nat ->
  MappedEnumerator.traverse fuel m
  = Some (map (mappedEntry (MappedEnumerator.callback m)
                 (MappedEnumerator.callbackContext m))
            (drop k (Abstract.entries (MappedEnumerator.previous m)))).
Proof.
  induction fuel as [|fuel IH]; intros k m Hc Hf; [lia |].
  simpl. destruct (Abstract.entries (MappedEnumerator.previous m) !! k)
    as [e|] eqn:He.
  - pose proof (lookup_lt_Some _ _ _ He) as Hlt.
    rewrite (mapped_moveNext_some m k e Hc He).
    rewrite (IH (S k)); [| done | simpl; lia]. simpl.
    rewrite (drop_S _ _ _ He). simpl.
    unfold MappedEnumerator.getCurrentIndex. simpl.
    by rewrite cursorAfter_getCurrentIndex, He by done.
  - apply lookup_ge_None_1 in He.
    rewrite (mapped_moveNext_none m k Hc He). by rewrite drop_ge.
Qed.

(** X4: a mapped cursor that was just made, or reset from whatever state,
    yields one pair per upstream pair, in upstream order: the upstream index
    unchanged, and for element the callback's answer to the context, the
    upstream element and the upstream index. *)
Theorem mapped_yields_callback_results
    (p : Abstract.t) (f : MappedEnumerator.MapFunc) (context : value)
    (m : MappedEnumerator.t) :
  MappedEnumerator.traverse (S (length (Abstract.entries p)))
    (MappedEnumerator.constructor p f context)
  = Some (map (mappedEntry f context) (Abstract.entries p)) /\
  MappedEnumerator.traverse
    (S (length (Abstract.entries (MappedEnumerator.previous m))))
    (MappedEnumerator.reset m)
  = Some (map (mappedEntry (MappedEnumerator.callback m)
                 (MappedEnumerator.callbackContext m))
            (Abstract.entries (MappedEnumerator.previous m))).
Proof.
  split.
  - rewrite (mapped_traverse_from _ 0); simpl;
      [by rewrite drop_0 | by rewrite cursorAfter_0 | lia].
  - rewrite (mapped_traverse_from _ 0); simpl;
      [by rewrite drop_0 | by rewrite cursorAfter_0 | lia].
Qed.

Lemma mapped_movedNext p f context k :
  let m := MappedEnumerator.movedNext k (MappedEnumerator.constructor p f context) in
  MappedEnumerator.previous m = p /\
  MappedEnumerator.callback m = f /\
  MappedEnumerator.callbackContext m = context /\
  MappedEnumerator.enumerator m = cursorAfter k (Abstract.entries p) /\
  MappedEnumerator.current m
  = match k with
    | O => VUndefined
    | S _ =>
      match Abstract.entries p !! (k `min` length (Abstract.entries p) - 1)%nat with
      | Some e => snd (mappedEntry f context e)
      | None => VUndefined
      end
    end.
Proof.
  induction k as [|k IH]; cbn zeta.
  - simpl. by rewrite cursorAfter_0.
  - cbn [MappedEnumerator.movedNext]. cbn zeta in IH.
    destruct IH as (Hp & Hf & Hctx & Hc & Hcur).
    set (m := MappedEnumerator.movedNext k _) in *.
    assert (Hc' : MappedEnumerator.enumerator m
                  = cursorAfter k (Abstract.entries (MappedEnumerator.previous m)))
      by (by rewrite Hp).
    destruct (Abstract.entries p !! k) as [e|] eqn:He.
    + pose proof (lookup_lt_Some _ _ _ He) as Hlt.
      rewrite (mapped_moveNext_some m k e Hc') by (by rewrite Hp).
      cbn [snd MappedEnumerator.previous MappedEnumerator.callback
           MappedEnumerator.callbackContext MappedEnumerator.enumerator
           MappedEnumerator.current].
      rewrite Hp, Hf, Hctx.
      replace (S k `min` length (Abstract.entries p) - 1)%nat with k by lia.
      by rewrite He.
    + apply lookup_ge_None_1 in He.
      rewrite (mapped_moveNext_none m k Hc') by (by rewrite Hp).
      cbn [snd MappedEnumerator.previous MappedEnumerator.callback
           MappedEnumerator.callbackContext MappedEnumerator.enumerator
           MappedEnumerator.current].
      rewrite Hp, Hcur, cursorAfter_exhausted by done.
      split; [done |]. split; [done |]. split; [done |]. split; [done |].
      destruct k as [|k'].
      * assert (Abstract.entries p = []) as ->
          by (destruct (Abstract.entries p); [done | simpl in He; lia]).
        done.
      * by replace (S (S k') `min` length (Abstract.entries p) - 1)%nat
          with (S k' `min` length (Abstract.entries p) - 1)%nat by lia.
Qed.

(** X5: before the first advance a mapped cursor shows [undefined] for its
    element; after [k >= 1] calls of [moveNext] it shows the callback's
    result for the upstream pair number [min k n], [n] being the number of
    upstream pairs: once the upstream is exhausted it keeps showing the last
    result ([undefined] over an empty upstream).  The index it shows is the
    one its upstream cursor shows: after the call number [k] that found a
    pair, the index of that pair. *)
Theorem mapped_shows_last_result
    (p : Abstract.t) (f : MappedEnumerator.MapFunc) (context : value) (k : nat) :
  MappedEnumerator.getCurrent
    (MappedEnumerator.movedNext k (MappedEnumerator.constructor p f context))
  = match k with
    | O => VUndefined
    | S _ =>
      match Abstract.entries p !! (k `min` length (Abstract.entries p) - 1)%nat with
      | Some e => f context (snd e) (fst e)
      | None => VUndefined
      end
    end /\
  MappedEnumerator.getCurrentIndex
    (MappedEnumerator.movedNext k (MappedEnumerator.constructor p f context))
  = Cursor.getCurrentIndex (cursorAfter k (Abstract.entries p)) /\
  forall e,
    (0 < k)%nat ->
    Abstract.entries p !! (k - 1)%nat = Some e ->
    MappedEnumerator.getCurrentIndex
      (MappedEnumerator.movedNext k (MappedEnumerator.constructor p f context))
    = fst e.
Proof.
  destruct (mapped_movedNext p f context k) as (_ & _ & _ & Hc & Hcur).
  split; [exact Hcur |]. split.
  - unfold MappedEnumerator.getCurrentIndex. by rewrite Hc.
  - intros e Hk He.
    unfold MappedEnumerator.getCurrentIndex. rewrite Hc.
    unfold Cursor.getCurrentIndex, cursorAfter.
    cbn [Cursor.index Cursor.items].
    pose proof (lookup_lt_Some _ _ _ He) as Hlt.
    destruct (Z.ltb_spec (Z.of_nat k `min` Z.of_nat (length (Abstract.entries p)) - 1) 0)
      as [Hneg|Hge]; [lia |].
    replace (Z.to_nat (Z.of_nat k `min` Z.of_nat (length (Abstract.entries p)) - 1))
      with (k - 1)%nat by lia.
    by rewrite He.
Qed.

Lemma mapped_shows_last_result_witness :
  MappedEnumerator.getCurrent
    (MappedEnumerator.movedNext 3
       (MappedEnumerator.constructor (Abstract.ofArray [VStr "a"; VStr "b"])
          (fun _ item index => VObject 1 (OArray [item; index])) VUndefined))
  = VObject 1 (OArray [VStr "b"; VNum 1]) /\
  MappedEnumerator.getCurrentIndex
    (MappedEnumerator.movedNext 2
       (MappedEnumerator.constructor (Abstract.ofArray [VStr "a"; VStr "b"])
          (fun _ item index => VObject 1 (OArray [item; index])) VUndefined))
  = VNum 1.
Proof.
  split.
  - by destruct (mapped_shows_last_result (Abstract.ofArray [VStr "a"; VStr "b"])
                   (fun _ item index => VObject 1 (OArray [item; index]))
                   VUndefined 3) as (Hcur & _).
  - destruct (mapped_shows_last_result (Abstract.ofArray [VStr "a"; VStr "b"])
                (fun _ item index => VObject 1 (OArray [item; index]))
                VUndefined 2) as (_ & _ & Hidx).
    apply (Hidx (VNum 1, VStr "b")); [lia | reflexivity].
Defined.

(** ** UniquelyEnumerator: what a traversal yields *)

Lemma sameKey_refl k : sameKey k k = true.
Proof.
  unfold sameKey. destruct k; simpl; rewrite ?String.eqb_refl; try done.
  apply Nat.eqb_refl.
Qed.

Lemma inherited_seen k oh kh : inheritedKey k = true -> seen k oh kh = true.
Proof.
  unfold inheritedKey, seen, UniquelyEnumerator.inHash.
  destruct (instanceofObject k); simpl; [done |].
  intros ->. apply orb_true_r.
Qed.

Lemma seen_remember_mono k k' oh kh :
  seen k' (fst (remember k oh kh)) (snd (remember k oh kh)) = false ->
  sameKey k' k = false /\ seen k' oh kh = false.
Proof. rewrite seen_remember. apply orb_false_elim. Qed.

Lemma uniqRun_sublist f l : forall oh kh, uniqRun f oh kh l `sublist_of` l.
Proof.
  induction l as [|e r IH]; intros oh kh; simpl; [done |].
  destruct (seen _ oh kh); [by apply sublist_cons | by apply sublist_skip].
Qed.

Lemma uniqRun_not_seen f l : forall oh kh e,
  e ∈ uniqRun f oh kh l -> seen (dedupKey f e) oh kh = false.
Proof.
  induction l as [|e0 r IH]; intros oh kh e; simpl.
  - by intros ?%elem_of_nil.
  - destruct (seen (dedupKey f e0) oh kh) eqn:Es; [by apply IH |].
    intros [->|Hin]%elem_of_cons; [done |].
    apply IH in Hin. by apply seen_remember_mono in Hin as [_ ?].
Qed.

Lemma uniqRun_distinct f l : forall oh kh, distinctKeys f (uniqRun f oh kh l).
Proof.
  induction l as [|e0 r IH]; intros oh kh; simpl; [constructor |].
  destruct (seen (dedupKey f e0) oh kh) eqn:Es; [by apply IH |].
  constructor; [| by apply IH].
  apply Forall_forall. intros e Hin.
  apply uniqRun_not_seen, seen_remember_mono in Hin as [Hne _].
  by rewrite sameKey_sym.
Qed.

Lemma uniqRun_covers f l : forall oh kh e,
  e ∈ l ->
  seen (dedupKey f e) oh kh = true \/
  exists e', e' ∈ uniqRun f oh kh l /\
             sameKey (dedupKey f e) (dedupKey f e') = true.
Proof.
  induction l as [|e0 r IH]; intros oh kh e; simpl.
  - by intros ?%elem_of_nil.
  - intros [->|Hin]%elem_of_cons.
    + destruct (seen (dedupKey f e0) oh kh) eqn:Es; [by left |].
      right. exists e0. split; [by left | apply sameKey_refl].
    + destruct (seen (dedupKey f e0) oh kh) eqn:Es.
      * destruct (IH oh kh e Hin) as [?|(e' & ? & ?)]; [by left |].
        right. by exists e'.
      * destruct (IH (fst (remember (dedupKey f e0) oh kh))
                    (snd (remember (dedupKey f e0) oh kh)) e Hin)
          as [Hs|(e' & ? & ?)].
        -- rewrite seen_remember in Hs.
           apply orb_true_iff in Hs as [Hs|Hs]; [| by left].
           right. exists e0. split; [by left | done].
        -- right. exists e'. split; [by right | done].
Qed.

Lemma uniqRun_fixed f l : forall oh kh,
  distinctKeys f l ->
  Forall (fun e => seen (dedupKey f e) oh kh = false) l ->
  uniqRun f oh kh l = l.
Proof.
  induction l as [|e0 r IH]; intros oh kh Hd Hs; simpl; [done |].
  inversion Hd as [|? ? Hd0 Hdr]; subst.
  inversion Hs as [|? ? Hs0 Hsr]; subst.
  rewrite Hs0. f_equal. apply IH; [done |].
  apply Forall_forall. intros e Hin.
  rewrite seen_remember.
  rewrite Forall_forall in Hd0. rewrite Forall_forall in Hsr.
  rewrite (sameKey_sym _ (dedupKey f e0)), (Hd0 e) by done.
  by apply Hsr.
Qed.

Lemma uniquely_traverse_constructor p f h :
  UniquelyEnumerator.traverse (S (length (Abstract.entries p)))
    (fst (UniquelyEnumerator.constructor p f h))
    (snd (UniquelyEnumerator.constructor p f h))
  = Some (uniqRun f [] ∅ (Abstract.entries p)).
Proof.
  by rewrite (traverse_spec _ (Abstract.entries p));
    [| apply owns_constructor | lia].
Qed.

(** X6: the pairs a Uniquely cursor yields, with or without an
    id-extractor, are upstream pairs in upstream order: elements and indices
    pass through unchanged, with gaps where pairs were skipped. *)
Theorem uniquely_output_is_sublist
    (p : Abstract.t) (f : option UniquelyEnumerator.ExtractFunc) (h : Heap) :
  exists out,
    UniquelyEnumerator.traverse (S (length (Abstract.entries p)))
      (fst (UniquelyEnumerator.constructor p f h))
      (snd (UniquelyEnumerator.constructor p f h)) = Some out /\
    out `sublist_of` Abstract.entries p.
Proof.
  eexists. split; [apply uniquely_traverse_constructor | apply uniqRun_sublist].
Qed.

(** X7: no two pairs that a Uniquely cursor yields have the same key: not
    the same object, and not primitives with the same string form. *)
Theorem uniquely_output_keys_distinct
    (p : Abstract.t) (f : option UniquelyEnumerator.ExtractFunc) (h : Heap) :
  exists out,
    UniquelyEnumerator.traverse (S (length (Abstract.entries p)))
      (fst (UniquelyEnumerator.constructor p f h))
      (snd (UniquelyEnumerator.constructor p f h)) = Some out /\
    distinctKeys f out.
Proof.
  eexists. split; [apply uniquely_traverse_constructor | apply uniqRun_distinct].
Qed.

(** X8: every upstream pair whose key is not a name inherited from
    Object.prototype is represented in what a Uniquely cursor yields: some
    yielded pair has the same key. *)
Theorem uniquely_covers_upstream_keys
    (p : Abstract.t) (f : option UniquelyEnumerator.ExtractFunc) (h : Heap) :
  exists out,
    UniquelyEnumerator.traverse (S (length (Abstract.entries p)))
      (fst (UniquelyEnumerator.constructor p f h))
      (snd (UniquelyEnumerator.constructor p f h)) = Some out /\
    forall e, e ∈ Abstract.entries p ->
      inheritedKey (dedupKey f e) = false ->
      exists e', e' ∈ out /\ sameKey (dedupKey f e) (dedupKey f e') = true.
Proof.
  eexists. split; [apply uniquely_traverse_constructor |].
  intros e Hin Hk.
  destruct (uniqRun_covers f (Abstract.entries p) [] ∅ e Hin) as [Hs|He]; [| done].
  by rewrite seen_empty in Hs.
Qed.

(** X9: a Uniquely cursor never yields a pair whose key is a primitive that
    names a property inherited from Object.prototype (such as the string
    ['toString']), not even at its first occurrence: the [in] test on the
    key hash finds the inherited name. *)
Theorem uniquely_never_yields_inherited_names
    (p : Abstract.t) (f : option UniquelyEnumerator.ExtractFunc) (h : Heap) :
  exists out,
    UniquelyEnumerator.traverse (S (length (Abstract.entries p)))
      (fst (UniquelyEnumerator.constructor p f h))
      (snd (UniquelyEnumerator.constructor p f h)) = Some out /\
    forall e, e ∈ out -> inheritedKey (dedupKey f e) = false.
Proof.
  eexists. split; [apply uniquely_traverse_constructor |].
  intros e Hin. apply uniqRun_not_seen in Hin.
  destruct (inheritedKey (dedupKey f e)) eqn:Ek; [| done].
  by rewrite inherited_seen in Hin.
Qed.

(** X10: deduplicating twice changes nothing: a Uniquely cursor (same
    id-extractor) over a link that enumerates what a Uniquely cursor yielded
    yields the same pairs again. *)
Theorem uniquely_twice_is_once
    (p : Abstract.t) (f : option UniquelyEnumerator.ExtractFunc)
    (h h' : Heap) (save : bool) :
  exists out,
    UniquelyEnumerator.traverse (S (length (Abstract.entries p)))
      (fst (UniquelyEnumerator.constructor p f h))
      (snd (UniquelyEnumerator.constructor p f h)) = Some out /\
    UniquelyEnumerator.traverse (S (length out))
      (fst (UniquelyEnumerator.constructor
              {| Abstract.entries := out; Abstract.shouldSaveIndices := save |} f h'))
      (snd (UniquelyEnumerator.constructor
              {| Abstract.entries := out; Abstract.shouldSaveIndices := save |} f h'))
    = Some out.
Proof.
  eexists. split; [apply uniquely_traverse_constructor |].
  etransitivity;
    [exact (uniquely_traverse_constructor
              {| Abstract.entries := uniqRun f [] ∅ (Abstract.entries p);
                 Abstract.shouldSaveIndices := save |} f h') |].
  cbn [Abstract.entries].
  f_equal. apply uniqRun_fixed; [apply uniqRun_distinct |].
  apply Forall_forall. intros e Hin.
  by apply uniqRun_not_seen in Hin.
Qed.

Lemma uniqRun_mapped (g : MappedEnumerator.MapFunc) context l : forall oh kh,
  uniqRun None oh kh (map (mappedEntry g context) l)
  = map (mappedEntry g context) (uniqRun (Some (g context)) oh kh l).
Proof.
  induction l as [|e r IH]; intros oh kh; simpl; [done |].
  destruct (seen (g context (snd e) (fst e)) oh kh); simpl; [done |].
  f_equal. apply IH.
Qed.

(** X11: [unique(f)] and [map(f)] followed by [unique()] agree: the pairs a
    Uniquely cursor without extractor yields over what a mapped cursor
    yields are the images, under the callback, of the pairs a Uniquely
    cursor with that callback as id-extractor yields over the same upstream. *)
Theorem unique_of_mapped_is_unique_by_extractor
    (p : Abstract.t) (g : MappedEnumerator.MapFunc) (context : value)
    (h h' : Heap) (save : bool) :
  exists mapped out,
    MappedEnumerator.traverse (S (length (Abstract.entries p)))
      (MappedEnumerator.constructor p g context) = Some mapped /\
    UniquelyEnumerator.traverse (S (length (Abstract.entries p)))
      (fst (UniquelyEnumerator.constructor p (Some (g context)) h))
      (snd (UniquelyEnumerator.constructor p (Some (g context)) h)) = Some out /\
    UniquelyEnumerator.traverse (S (length mapped))
      (fst (UniquelyEnumerator.constructor
              {| Abstract.entries := mapped; Abstract.shouldSaveIndices := save |}
              None h'))
      (snd (UniquelyEnumerator.constructor
              {| Abstract.entries := mapped; Abstract.shouldSaveIndices := save |}
              None h'))
    = Some (map (mappedEntry g context) out).
Proof.
  eexists _, _. split; [| split].
  - rewrite (mapped_traverse_from _ 0); simpl;
      [by rewrite drop_0 | by rewrite cursorAfter_0 | lia].
  - apply uniquely_traverse_constructor.
  - etransitivity;
      [exact (uniquely_traverse_constructor
                {| Abstract.entries := map (mappedEntry g context) (Abstract.entries p);
                   Abstract.shouldSaveIndices := save |} None h') |].
    cbn [Abstract.entries]. by rewrite uniqRun_mapped.
Qed.

(** ** ZippedEnumerator: tuples, errors and reset *)

Lemma zipItems_length index items : forall i ies cur tuple ies',
  ZippedEnumerator.zipItems index i items ies cur = (Return tuple, ies') ->
  length tuple = (length cur + length items)%nat.
Proof.
  induction items as [|item rest IH]; intros i ies cur tuple ies'; simpl.
  - intros [= <- _]. lia.
  - destruct (instanceofArray item).
    + intros Hz. apply IH in Hz. rewrite length_app in Hz. simpl in Hz. lia.
    + destruct (truthy item && truthy (IEnumerableTag item)); [| done].
      destruct (match ies !! i with
                | Some c => Return c
                | None => callGetEnumerator item
                end) as [c|e]; [| done].
      destruct (Cursor.moveNext c) as [hasNext c'].
      intros Hz. apply IH in Hz. rewrite length_app in Hz. simpl in Hz. lia.
Qed.


(** X12: whenever [moveNext] of a zipped cursor answers [true], whatever the
    state it was called in, the tuple it leaves as current element has one
    component for the primary and one for every secondary collection. *)
Theorem zipped_tuple_has_one_component_per_collection
    (z z' : ZippedEnumerator.t) :
  ZippedEnumerator.moveNext z = (Return true, z') ->
  exists tuple,
    ZippedEnumerator.getCurrent z' = Some tuple /\
    length tuple = S (length (ZippedEnumerator.items z)) /\
    ZippedEnumerator.getCurrentIndex z' = ZippedEnumerator.getCurrentIndex z + 1.
Proof.
  unfold ZippedEnumerator.moveNext.
  destruct (Cursor.moveNext _) as [[] c']; [| done].
  destruct (ZippedEnumerator.zipItems _ _ _ _ _) as [[tuple|err] ies] eqn:Hz;
    [| done].
  intros [= <-]. exists tuple. simpl. repeat split.
  by apply zipItems_length in Hz.
Qed.

Lemma zipped_tuple_has_one_component_per_collection_witness :
  exists z' tuple,
    ZippedEnumerator.moveNext
      {| ZippedEnumerator.previous := Abstract.ofArray [VNum 1];
         ZippedEnumerator.items := [VObject 1 (OArray []); VObject 2 (OEnumerable [])];
         ZippedEnumerator.current := None; ZippedEnumerator.index := -1;
         ZippedEnumerator.enumerator := None;
         ZippedEnumerator.itemsEnumerators := ∅ |} = (Return true, z') /\
    ZippedEnumerator.getCurrent z' = Some tuple /\
    length tuple = 3%nat /\
    ZippedEnumerator.getCurrentIndex z' = 0.
Proof.
  assert (Hm : exists z',
            ZippedEnumerator.moveNext
              {| ZippedEnumerator.previous := Abstract.ofArray [VNum 1];
                 ZippedEnumerator.items :=
                   [VObject 1 (OArray []); VObject 2 (OEnumerable [])];
                 ZippedEnumerator.current := None; ZippedEnumerator.index := -1;
                 ZippedEnumerator.enumerator := None;
                 ZippedEnumerator.itemsEnumerators := ∅ |} = (Return true, z'))
    by (eexists; vm_compute; reflexivity).
  destruct Hm as [z' Hm].
  destruct (zipped_tuple_has_one_component_per_collection _ _ Hm)
    as (tuple & Hc & Hl & Hi).
  exists z', tuple. split; [exact Hm |]. split; [exact Hc |].
  split; [exact Hl | exact Hi].
Defined.



(** X14: [reset] of a zipped cursor, in whatever state, gives back the
    traversal of a new cursor: when every secondary is an array or an
    enumerable, a traversal after [reset] yields all the positional tuples
    from the first one on. *)
Theorem zipped_reset_restarts (z : ZippedEnumerator.t) :
  Forall (fun item => supported item = true) (ZippedEnumerator.items z) ->
  ZippedEnumerator.traverse
    (S (length (Abstract.entries (ZippedEnumerator.previous z))))
    (ZippedEnumerator.reset z)
  = Some (Return (zipped (Abstract.entries (ZippedEnumerator.previous z))
                    (ZippedEnumerator.items z))).
Proof.
  intros Hsup.
  rewrite (zipped_traverse_from (ZippedEnumerator.previous z)
             (ZippedEnumerator.items z) _ 0); [by rewrite drop_0 | done | | lia].
  repeat split; simpl; try done.
  - by rewrite cursorAfter_0.
  - intros j item _ _. rewrite lookup_empty. simpl.
    rewrite cursorAfter_0. by destruct item as [| | | | |r [ | | | | ]].
Qed.

Lemma zipped_reset_restarts_witness :
  ZippedEnumerator.traverse 3
    (ZippedEnumerator.reset
       (movedNext 2
          {| ZippedEnumerator.previous := Abstract.ofArray [VNum 1; VNum 2];
             ZippedEnumerator.items := [VObject 1 (OEnumerable [(VNum 0, VStr "a")])];
             ZippedEnumerator.current := None; ZippedEnumerator.index := -1;
             ZippedEnumerator.enumerator := None;
             ZippedEnumerator.itemsEnumerators := ∅ |}))
  = Some (Return [(0, Some [VNum 1; VStr "a"]); (1, Some [VNum 2; VUndefined])]).
Proof.
  assert (Ht := zipped_reset_restarts
           (movedNext 2
              {| ZippedEnumerator.previous := Abstract.ofArray [VNum 1; VNum 2];
                 ZippedEnumerator.items :=
                   [VObject 1 (OEnumerable [(VNum 0, VStr "a")])];
                 ZippedEnumerator.current := None; ZippedEnumerator.index := -1;
                 ZippedEnumerator.enumerator := None;
                 ZippedEnumerator.itemsEnumerators := ∅ |})).
  vm_compute in Ht. vm_compute. apply Ht. repeat constructor.
Defined.

(** ** SortedEnumerator: the default comparator *)

(** X15: the default comparator is a consistent comparison function
    whenever the host's [===] is an equivalence on the compared values and
    its [>] is a transitive relation that orders, one way or the other,
    exactly the values that are not [===]. *)
Theorem defaultCompare_consistent
    (strictEq greater : SortWrapper.t -> SortWrapper.t -> bool) :
  (forall a, strictEq a a = true) ->
  (forall a b, strictEq a b = true -> strictEq b a = true) ->
  (forall a b c, strictEq a b = true -> strictEq b c = true -> strictEq a c = true) ->
  (forall a b c, greater a b = true -> greater b c = true -> greater a c = true) ->
  (forall a b, strictEq a b = true -> greater a b = false) ->
  (forall a b, strictEq a b = false -> greater a b = negb (greater b a)) ->
  ConsistentComparator (SortedEnumerator.defaultCompare strictEq greater).
Proof.
  intros Hrefl Hsym Htrans Hgt Heq Htri.
  assert (Hcases : forall a b,
            (strictEq a b = true /\
             SortedEnumerator.defaultCompare strictEq greater a b = 0) \/
            (strictEq a b = false /\ greater a b = true /\ greater b a = false /\
             SortedEnumerator.defaultCompare strictEq greater a b = 1) \/
            (strictEq a b = false /\ greater a b = false /\ greater b a = true /\
             SortedEnumerator.defaultCompare strictEq greater a b = -1)).
  { intros a b. unfold SortedEnumerator.defaultCompare.
    destruct (strictEq a b) eqn:E; [by left |].
    right. pose proof (Htri a b E) as Ht.
    destruct (greater a b), (greater b a); try done; [by left | by right]. }
  assert (Hne : forall a b, strictEq a b = false -> strictEq b a = false).
  { intros a b E. destruct (strictEq b a) eqn:E'; [| done].
    apply Hsym in E'. congruence. }
  split.
  - intros a. destruct (Hcases a a) as [[_ ->]|[(E & _)|(E & _)]];
      [done | |]; rewrite Hrefl in E; done.
  - intros a b Hab.
    destruct (Hcases a b) as [[E _]|[(_ & _ & _ & H)|(_ & _ & _ & H)]];
      [| lia | lia].
    destruct (Hcases b a) as [[_ ->]|[(E' & _)|(E' & _)]]; [done | |];
      apply Hsym in E; congruence.
  - intros a b c Hab Hbc.
    destruct (Hcases a b) as [[E1 _]|[(_ & _ & _ & H)|(_ & _ & _ & H)]];
      [| lia | lia].
    destruct (Hcases b c) as [[E2 _]|[(_ & _ & _ & H)|(_ & _ & _ & H)]];
      [| lia | lia].
    destruct (Hcases a c) as [[_ ->]|[(E' & _)|(E' & _)]]; [done | |];
      rewrite (Htrans a b c E1 E2) in E'; done.
  - intros a b c Hab Hbc.
    destruct (Hcases a b) as [[_ H]|[(_ & _ & _ & H)|(E1 & _ & G1 & _)]];
      [lia | lia |].
    destruct (Hcases b c) as [[_ H]|[(_ & _ & _ & H)|(E2 & _ & G2 & _)]];
      [lia | lia |].
    pose proof (Hgt c b a G2 G1) as G.
    destruct (Hcases a c) as [[E _]|[(_ & _ & G' & _)|(_ & _ & _ & ->)]];
      [| congruence | lia].
    apply Hsym, Heq in E. congruence.
  - intros a b c Hab Hbc.
    destruct (Hcases a b) as [[_ H]|[(E1 & G1 & _)|(_ & _ & _ & H)]];
      [lia | | lia].
    destruct (Hcases b c) as [[_ H]|[(E2 & G2 & _)|(_ & _ & _ & H)]];
      [lia | | lia].
    pose proof (Hgt a b c G1 G2) as G.
    destruct (Hcases a c) as [[E _]|[(_ & _ & _ & ->)|(_ & G' & _)]];
      [| lia | congruence].
    apply Heq in E. congruence.
Qed.

Lemma sameNumber_spec a b :
  sameNumber a b = true
  <-> numberOf (SortWrapper.item a) = numberOf (SortWrapper.item b).
Proof. apply Z.eqb_eq. Qed.

Lemma greaterNumber_spec a b :
  greaterNumber a b = true
  <-> numberOf (SortWrapper.item b) < numberOf (SortWrapper.item a).
Proof. unfold greaterNumber. rewrite Z.gtb_ltb. apply Z.ltb_lt. Qed.

Lemma defaultCompare_numbers a b :
  SortedEnumerator.defaultCompare sameNumber greaterNumber a b
  = Z.sgn (numberOf (SortWrapper.item a) - numberOf (SortWrapper.item b)).
Proof.
  unfold SortedEnumerator.defaultCompare.
  destruct (sameNumber a b) eqn:E.
  - apply sameNumber_spec in E. rewrite E. by rewrite Z.sub_diag.
  - destruct (greaterNumber a b) eqn:G.
    + apply greaterNumber_spec in G. lia.
    + assert (numberOf (SortWrapper.item a) <> numberOf (SortWrapper.item b))
        by (intros ?%sameNumber_spec; congruence).
      assert (~ numberOf (SortWrapper.item b) < numberOf (SortWrapper.item a))
        by (intros ?%greaterNumber_spec; congruence).
      lia.
Qed.

Lemma defaultCompare_consistent_witness :
  ConsistentComparator (SortedEnumerator.defaultCompare sameNumber greaterNumber) /\
  SortedEnumerator.defaultCompare sameNumber greaterNumber
    (SortWrapper.new (VNum 2) (VNum 0)) (SortWrapper.new (VNum 1) (VNum 1)) = 1.
Proof.
  split; [| reflexivity].
  apply (defaultCompare_consistent sameNumber greaterNumber).
  - intros a. by apply sameNumber_spec.
  - intros a b. rewrite !sameNumber_spec. congruence.
  - intros a b c. rewrite !sameNumber_spec. congruence.
  - intros a b c. rewrite !greaterNumber_spec. lia.
  - intros a b Hab. apply sameNumber_spec in Hab.
    destruct (greaterNumber a b) eqn:G; [| done].
    apply greaterNumber_spec in G. lia.
  - intros a b Hab.
    assert (numberOf (SortWrapper.item a) <> numberOf (SortWrapper.item b))
      by (intros ?%sameNumber_spec; congruence).
    destruct (greaterNumber a b) eqn:G1, (greaterNumber b a) eqn:G2; try done.
    + apply greaterNumber_spec in G1, G2. lia.
    + assert (~ numberOf (SortWrapper.item b) < numberOf (SortWrapper.item a))
        by (intros ?%greaterNumber_spec; congruence).
      assert (~ numberOf (SortWrapper.item a) < numberOf (SortWrapper.item b))
        by (intros ?%greaterNumber_spec; congruence).
      lia.
Defined.

(** X16: the default comparator can only be a consistent comparison
    function when [>] orders every two values that are not [===]: for two
    values that are not [===] and of which the first is not [>] the second,
    consistency forces the second to be [>] the first.  (For a pair that [>]
    orders in neither direction the comparator answers [-1] both ways.) *)
Theorem defaultCompare_consistent_needs_total_order
    (strictEq greater : SortWrapper.t -> SortWrapper.t -> bool)
    (a b : SortWrapper.t) :
  ConsistentComparator (SortedEnumerator.defaultCompare strictEq greater) ->
  strictEq a b = false -> greater a b = false ->
  greater b a = true /\ strictEq b a = false.
Proof.
  intros Hc Hab Hgt.
  assert (H1 : SortedEnumerator.defaultCompare strictEq greater a b = -1)
    by (unfold SortedEnumerator.defaultCompare; by rewrite Hab, Hgt).
  pose proof (cmp_refl _ Hc a) as Hrefl.
  destruct (strictEq b a) eqn:Eba.
  - assert (H2 : SortedEnumerator.defaultCompare strictEq greater b a = 0)
      by (unfold SortedEnumerator.defaultCompare; by rewrite Eba).
    apply (cmp_sym _ Hc) in H2. lia.
  - split; [| done]. destruct (greater b a) eqn:Gba; [done |].
    assert (H2 : SortedEnumerator.defaultCompare strictEq greater b a = -1)
      by (unfold SortedEnumerator.defaultCompare; by rewrite Eba, Gba).
    pose proof (cmp_trans_lt _ Hc a b a). lia.
Qed.

Lemma numbers_default_consistent :
  ConsistentComparator (SortedEnumerator.defaultCompare sameNumber greaterNumber).
Proof.
  split; intros *; rewrite !defaultCompare_numbers; lia.
Qed.

Lemma defaultCompare_consistent_needs_total_order_witness :
  greaterNumber (SortWrapper.new (VNum 2) (VNum 1)) (SortWrapper.new (VNum 1) (VNum 0))
    = true /\
  sameNumber (SortWrapper.new (VNum 2) (VNum 1)) (SortWrapper.new (VNum 1) (VNum 0))
    = false.
Proof.
  apply (defaultCompare_consistent_needs_total_order sameNumber greaterNumber
           (SortWrapper.new (VNum 1) (VNum 0)) (SortWrapper.new (VNum 2) (VNum 1))).
  - apply numbers_default_consistent.
  - reflexivity.
  - reflexivity.
Defined.

(** ** factory: failure *)

(** X17: [factory] throws exactly for the inputs that are no instance of
    Object and carry no truthy IEnumerable tag: the primitives ([undefined],
    [null], booleans, numbers, strings), for which the message quotes the
    string form, and the symbols and the untagged objects without a
    prototype, for which the conversion to a string throws.  For every other
    input it returns a chain link. *)
Theorem factory_failure_cases (fresh : nat) (source : Factory.Source) :
  ((exists e, Factory.factory fresh source = Throw e)
   <-> Factory.isObject source = false /\ Factory.isTagged source = false) /\
  (forall v, source = Factory.Ordinary v -> instanceofObject v = false ->
     Factory.isTagged source = false /\
     Factory.factory fresh source = Throw (Factory.unsupported (toString v))) /\
  (forall props, source = Factory.Bare props -> Factory.isTagged source = false ->
     Factory.factory fresh source
     = Throw (TypeError "Cannot convert object to primitive value")) /\
  (forall description, source = Factory.SymbolOf description ->
     Factory.factory fresh source
     = Throw (TypeError "Cannot convert a Symbol value to a string")) /\
  (Factory.isObject source = true \/ Factory.isTagged source = true ->
   exists link, Factory.factory fresh source = Return link /\
                Factory.isAbstract link = true).
Proof.
  assert (Habs : Factory.isAbstract source = true -> Factory.isObject source = true).
  { destruct source as [[| | | | |r [ | | | | ]]|props|d]; done. }
  assert (Harr : Factory.isArray source = true -> Factory.isObject source = true).
  { destruct source as [[| | | | |r [ | | | | ]]|props|d]; done. }
  split; [split | split; [| split; [| split]]].
  - intros [e He]. unfold Factory.factory in He.
    destruct (Factory.isAbstract source); [done |].
    destruct (Factory.isTagged source); [done |].
    destruct (Factory.isArray source); [done |].
    by destruct (Factory.isObject source).
  - intros [Ho Ht]. unfold Factory.factory. rewrite Ht, Ho.
    destruct (Factory.isAbstract source); [specialize (Habs eq_refl); congruence |].
    destruct (Factory.isArray source); [specialize (Harr eq_refl); congruence |].
    destruct (Factory.stringOf source); by eexists.
  - intros v -> Hv. split; [exact (primitive_untagged v Hv) |].
    unfold Factory.factory. simpl. rewrite (primitive_untagged v Hv), Hv.
    by destruct v as [| | | | |r o].
  - intros props -> Ht. unfold Factory.factory. by rewrite Ht.
  - by intros description ->.
  - intros Hor. unfold Factory.factory.
    destruct (Factory.isAbstract source) eqn:Ea; [by eexists |].
    destruct (Factory.isTagged source) eqn:Et; [by eexists |].
    destruct (Factory.isArray source) eqn:Er; [by eexists |].
    destruct Hor as [Ho|Ht]; [| done]. rewrite Ho. by eexists.
Qed.
